(** * Borderless: the Lua plugin bridge and the shortcut list model

    A shallow embedding of the parts of [src/plugin-core/Lua/lua.cpp] and
    of the options dialog's [ShortcutListModel] that the specification
    makes claims about.

    Modelling conventions.
    - A C++ [double] is an exact rational ([Q]); IEEE-754 rounding is not
      modelled.  Comparisons of doubles are the boolean comparisons of [Q],
      so every statement about doubles is up to [Qeq] ([==]).
    - A C++ [int] is a [Z]; where the source does arithmetic on an [int]
      the 32-bit wrap-around is written out with [int_wrap].
    - A [std::uint8_t] channel is a [Byte.byte].
    - A Lua C function returns the list of values it pushed, bottom first;
      the message boxes it opened are kept in a log. *)

From Stdlib Require Import ZArith QArith Qround Qabs Qminmax Lqa Lia.
From Stdlib Require Import List String Bool.
From Stdlib.Strings Require Import Byte.
From Stdlib Require Import DecimalString Sorted.
From Stdlib Require OrderedTypeEx.
From Equations Require Import Equations.
Import ListNotations.

Local Open Scope Z_scope.

(** ** Fallible results of the pure numeric cores

    [Err msg] stands for the path
    [handle_call_to_c_error(state, __FUNCTION__, msg); return 0;]
    and [Ok a] for the path that pushes the values [a]. *)

Inductive Result (A : Type) : Type :=
| Ok (a : A)
| Err (msg : string).
Arguments Ok {A} a.
Arguments Err {A} msg.

Module Color.

Local Open Scope Q_scope.

(** [(int)d] for a double [d]: truncation towards zero. *)
Definition Qtruncate (q : Q) : Z :=
  if Qle_bool 0 q then Qfloor q else Qceiling q.

(** [fmod(x, y)]: [x - n*y] where [n] is [x/y] truncated towards zero. *)
Definition fmod (x y : Q) : Q :=
  x - inject_Z (Qtruncate (x / y)) * y.

(** [a < b] on doubles. *)
Definition Qlt_bool (a b : Q) : bool := negb (Qle_bool b a).

(** lua.cpp:34 *)
Definition euclidean_modulo (x y : Q) : Q :=
  let x := if Qlt_bool x 0 then y - fmod (- x) y else x in
  let x := if Qle_bool y x then fmod x y else x in
  x.

(** The range test of the argument loop of [rgb_to_hsv]
    ([rgb[i] < 0 || rgb[i] > 255]). *)
Definition out_of_byte_range (c : Q) : bool :=
  Qlt_bool c 0 || Qlt_bool 255 c.

Definition rgb_range_msg : string :=
  "All parameters should be in the range [0; 255].".

(** The hue of [rgb_to_hsv] before the final [hue *= 60], for normalised
    channels (lua.cpp:187-192). *)
Definition hue_sextant (r g b val delta : Q) : Q :=
  if Qeq_bool val r then euclidean_modulo ((g - b) / delta) 6
  else if Qeq_bool val g then (b - r) / delta + 2
  else (r - g) / delta + 4.


(** lua.cpp:151.  The three arguments are the numbers read by
    [lua_tonumber]; the result is the triple pushed by [lua_pushnumber].
    [!max] and [val == r] on doubles are [Qeq_bool]. *)
Definition rgb_to_hsv (r0 g0 b0 : Q) : Result (Q * Q * Q) :=
  if out_of_byte_range r0 then Err rgb_range_msg
  else if out_of_byte_range g0 then Err rgb_range_msg
  else if out_of_byte_range b0 then Err rgb_range_msg
  else
    let r := r0 / 255 in
    let g := g0 / 255 in
    let b := b0 / 255 in
    let max := Qmax r (Qmax g b) in
    let min := Qmin r (Qmin g b) in
    let delta := max - min in
    let val := max in
    let sat := if Qeq_bool max 0 then 0 else delta / max in
    let hue :=
      if Qeq_bool delta 0 || Qeq_bool sat 0 then 0
      else hue_sextant r g b val delta * 60 in
    Ok (hue, sat, val).

Definition sat_range_msg : string :=
  "Saturation should be in the range [0;1].".
Definition val_range_msg : string :=
  "Value should be in the range [0;1].".

(** The table [values[][3]] of [hsv_to_rgb], row [j]; the source asserts
    [0 <= j < 6] before indexing, so no other row exists. *)
Definition values (c x : Q) (j : Z) : option (Q * Q * Q) :=
  match j with
  | 0%Z => Some (c, x, 0)
  | 1%Z => Some (x, c, 0)
  | 2%Z => Some (0, c, x)
  | 3%Z => Some (0, x, c)
  | 4%Z => Some (x, 0, c)
  | 5%Z => Some (c, 0, x)
  | _ => None
  end.


Definition assert_msg : string := "assert(j >= 0 && j < 6)".

(** lua.cpp:202.  [Ok (r, g, b)] are the three integers pushed; a failed
    [assert] is reported as [Err assert_msg] (the process aborts).  [abs]
    is the overload of [<cmath>] on doubles, [Qabs]. *)
Definition hsv_to_rgb (hue sat val : Q) : Result (Z * Z * Z) :=
  let hue := euclidean_modulo hue 360 in
  if Qlt_bool sat 0 || Qlt_bool 1 sat then Err sat_range_msg
  else if Qlt_bool val 0 || Qlt_bool 1 val then Err val_range_msg
  else
    let chroma := val * sat in
    let c := chroma in
    let x := chroma * (1 - Qabs (euclidean_modulo (hue / 60) 2 - 1)) in
    let m := val - chroma in
    let j := Qtruncate (hue / 60) in
    match values c x j with
    | Some (v0, v1, v2) =>
        Ok (Qtruncate ((v0 + m) * 255),
            Qtruncate ((v1 + m) * 255),
            Qtruncate ((v2 + m) * 255))
    | None => Err assert_msg
    end.


End Color.

(** ** C++ [int] arithmetic *)

(** The value an [int] holds after a result [z] is stored in it
    (two's complement, 32 bits). *)
Definition int_wrap (z : Z) : Z :=
  (z + 2 ^ 31) mod 2 ^ 32 - 2 ^ 31.

Module ZigZag.

(** [enum class ZigZagState] (lua.cpp:439), as the integers that cross the
    Lua boundary: the state is received as [(ZigZagState)params[4]] and
    sent back as [(int)s]. *)
Definition Initial : Z := 0.
Definition RightwardsOnTop : Z := 1.
Definition DownLeft : Z := 2.
Definition DownwardsOnLeft : Z := 3.
Definition UpRight : Z := 4.
Definition DownwardsOnRight : Z := 5.
Definition RightwardsOnBottom : Z := 6.
Definition End : Z := -1.

(** The local variables of [zig_zag_order] that the loop changes. *)
Record Locals : Type := mkLocals {
  lx : Z;
  ly : Z;
  ls : Z;
  lrepeat : Z
}.

Section Grid.

Variables w h : Z.

(** The macros of lua.cpp:469-472. *)
Definition allleft (l : Locals) : bool := lx l =? 0.
Definition allright (l : Locals) : bool := lx l =? int_wrap (w - 1).
Definition attop (l : Locals) : bool := ly l =? 0.
Definition atbottom (l : Locals) : bool := ly l =? int_wrap (h - 1).

Definition inc (z : Z) : Z := int_wrap (z + 1).
Definition dec (z : Z) : Z := int_wrap (z - 1).

(** [s = next; repeat++; break;] *)
Definition again (l : Locals) (next : Z) : Locals :=
  mkLocals (lx l) (ly l) next (inc (lrepeat l)).

(** The [switch (s)] of lua.cpp:476-554; a state that is none of the
    enumerators matches no [case] and leaves everything as it is. *)
Definition switch (l : Locals) : Locals :=
  let s := ls l in
  if s =? Initial then
    mkLocals 0 0 RightwardsOnTop (lrepeat l)
  else if s =? RightwardsOnTop then
    if allright l then again l DownwardsOnRight
    else mkLocals (inc (lx l)) (ly l) DownLeft (lrepeat l)
  else if s =? DownLeft then
    if atbottom l then again l RightwardsOnBottom
    else if allleft l then again l DownwardsOnLeft
    else mkLocals (dec (lx l)) (inc (ly l)) (ls l) (lrepeat l)
  else if s =? DownwardsOnLeft then
    if atbottom l then again l RightwardsOnBottom
    else mkLocals (lx l) (inc (ly l)) UpRight (lrepeat l)
  else if s =? UpRight then
    if allright l then again l DownwardsOnRight
    else if attop l then again l RightwardsOnTop
    else mkLocals (inc (lx l)) (dec (ly l)) (ls l) (lrepeat l)
  else if s =? DownwardsOnRight then
    if atbottom l then again l End
    else mkLocals (lx l) (inc (ly l)) DownLeft (lrepeat l)
  else if s =? RightwardsOnBottom then
    if allright l then again l End
    else mkLocals (inc (lx l)) (ly l) UpRight (lrepeat l)
  else if s =? End then
    mkLocals (lx l) (ly l) (ls l) 0
  else l.

(** [for (int repeat = 1; repeat--; ) switch ...]: the test reads
    [repeat], then decrements it, and the body runs when the value read
    was not zero.  [fuel] bounds the number of tests; [None] is a loop
    that has not finished within it. *)
Fixpoint loop (fuel : nat) (l : Locals) : option Locals :=
  match fuel with
  | O => None
  | S fuel' =>
      let tested := lrepeat l in
      let l := mkLocals (lx l) (ly l) (ls l) (dec tested) in
      if tested =? 0 then Some l else loop fuel' (switch l)
  end.

(** No chain of [repeat++] is longer than three, so six tests are more
    than the loop ever makes (see [ZigZag_loop_total]). *)
Definition loop_fuel : nat := 6.

(** lua.cpp:450, after the five parameters have been read into [int]s.
    The result is the triple [(x, y, (int)s)] pushed, [None] only if the
    loop did not finish. *)
Definition zig_zag_order (x y s : Z) : option (Z * Z * Z) :=
  let l := mkLocals x y s 1 in
  let l := if atbottom l && allright l
           then mkLocals x y End 1 else l in
  match loop loop_fuel l with
  | Some l => Some (lx l, ly l, ls l)
  | None => None
  end.

End Grid.

(** A script that drives the generator: call, keep the coordinates
    returned, feed the triple back in, stop when the state returned is
    [End].  [visited] are the coordinates returned with a state other than
    [End], in order. *)
Fixpoint drive (fuel : nat) (w h x y s : Z) : option (list (Z * Z)) :=
  match fuel with
  | O => None
  | S fuel' =>
      match zig_zag_order w h x y s with
      | None => None
      | Some (x', y', s') =>
          if s' =? End then Some []
          else match drive fuel' w h x' y' s' with
               | Some rest => Some ((x', y') :: rest)
               | None => None
               end
      end
  end.

(** The cells of a [w] by [h] grid. *)
Definition in_grid (w h : Z) (p : Z * Z) : Prop :=
  0 <= fst p < w /\ 0 <= snd p < h.

(** The zig-zag order of the cells: by anti-diagonal [x + y]; along an
    even diagonal with [x] growing (up and to the right), along an odd one
    with [x] shrinking (down and to the left). *)
Definition before (p q : Z * Z) : Prop :=
  fst p + snd p < fst q + snd q \/
  (fst p + snd p = fst q + snd q /\
   (((fst p + snd p) mod 2 = 0 /\ fst p < fst q) \/
    ((fst p + snd p) mod 2 = 1 /\ fst q < fst p))).

(** The states that the generator returns with a position, short of
    [End]: [RightwardsOnTop] at the origin, [DownLeft] on an odd diagonal
    and [UpRight] on an even one. *)
Definition consistent (x y s : Z) : Prop :=
  (s = RightwardsOnTop /\ x = 0 /\ y = 0) \/
  (s = DownLeft /\ (x + y) mod 2 = 1) \/
  (s = UpRight /\ (x + y) mod 2 = 0).

(** The number of calls that certainly reach [End] from the cell [p]: the
    diagonals left, each at most [w + 1] calls long. *)
Definition calls_left (w h : Z) (p : Z * Z) : Z :=
  (w + h - (fst p + snd p)) * (w + 1)
  - (if (fst p + snd p) mod 2 =? 0 then fst p else w - fst p).

End ZigZag.

(** ** The Lua side of the bridge *)

Module Lua.

(** The Lua values the bridge receives and pushes. *)
#[local] Set Warnings "-register-all".
Inductive Value : Type :=
| Nil
| Boolean (b : bool)
| Integer (z : Z)
| Number (q : Q)
| Str (s : string)
| Table (fields : list (string * Value)).

(** The conversions of the Lua C API the bridge relies on; they belong to
    the Lua library, not to this repository. *)
Class Conversions : Type := {
  lua_isnumber : Value -> bool;
  lua_isstring : Value -> bool;
  lua_tointeger : Value -> Z;
  lua_tostring : Value -> string
}.

Definition lua_isnil (v : Value) : bool :=
  match v with Nil => true | _ => false end.

Definition lua_istable (v : Value) : bool :=
  match v with Table _ => true | _ => false end.

(** [lua_gettable] with a string key; a missing key reads as [nil]. *)
Fixpoint lookup (key : string) (fields : list (string * Value)) : Value :=
  match fields with
  | [] => Nil
  | (k, v) :: rest => if String.eqb k key then v else lookup key rest
  end.

Definition lua_gettable (t : Value) (key : string) : Value :=
  match t with Table fields => lookup key fields | _ => Nil end.

(** The value at stack index [i] (1-based) of a call with arguments
    [args]; [lua_gettop] is [length args]. *)
Definition arg (args : list Value) (i : nat) : Value :=
  nth (i - 1) args Nil.

(** The conversions on values that are what they should be; numeric
    strings are not converted. *)
Definition plain_conversions : Conversions := {|
  lua_isnumber v := match v with Integer _ | Number _ => true | _ => false end;
  lua_isstring v :=
    match v with Str _ | Integer _ | Number _ => true | _ => false end;
  lua_tointeger v :=
    match v with Integer z => z | Number q => Qfloor q | _ => 0 end;
  lua_tostring v := match v with Str s => s | _ => EmptyString end
|}.

End Lua.

Module Bridge.

Import Lua.

(** The envelope every interpreter operation returns ([CallResultImpl.h]
    is not among the sources; these are the members lua.cpp reads). *)
Record CallResult : Type := mkCallResult {
  success : bool;
  results : list Z;
  message : string
}.

(** [res.results[i]] *)
Definition result (res : CallResult) (i : nat) : Z := nth i (results res) 0.

(** [SaveOptions], with the two members lua.cpp writes. *)
Record SaveOptions : Type := mkSaveOptions {
  format : string;
  compression : Z
}.

(** What the bridge asks of the host, in order. *)
Inductive Event : Type :=
| Call_load_image (path : string)
| Call_allocate_image (w h : Z)
| Call_unload_image (handle : Z)
| Call_save_image (handle : Z) (path : string) (opt : SaveOptions)
| Call_get_pixel (handle x y : Z)
| Call_get_image_dimensions (handle : Z)
| Call_display_in_current_window (handle : Z)
| Call_get_caller_image
| Call_message_box (title : option string) (text : string) (is_error : bool).

(** [LuaInterpreter], the host object behind [get_interpreter(state)]; its
    methods act on a host state [H]. *)
Class LuaInterpreter (H : Type) : Type := {
  interp_load_image : string -> H -> CallResult * H;
  interp_allocate_image : Z -> Z -> H -> CallResult * H;
  interp_unload_image : Z -> H -> CallResult * H;
  interp_save_image : Z -> string -> SaveOptions -> H -> CallResult * H;
  interp_get_pixel : Z -> Z -> Z -> H -> CallResult * H;
  interp_get_image_dimensions : Z -> H -> CallResult * H;
  interp_display_in_current_window : Z -> H -> CallResult * H;
  interp_get_caller_image : H -> Z * H;
  (** a default-constructed [SaveOptions] *)
  default_options : SaveOptions
}.

Section WithHost.

Context {H : Type} {interpreter : LuaInterpreter H} {conv : Conversions}.

(** What a call of a C function can read and change. *)
Record State : Type := mkState {
  host : H;
  (** the Lua global [__current_image] *)
  current_image_global : Value;
  (** [debug.currentline] of the calling script frame *)
  currentline : Z;
  (** the calls made to the host so far, oldest first *)
  trace : list Event
}.

(** A C function: from the state before to the values pushed and the
    state after. *)
Definition M (A : Type) : Type := State -> A * State.

Definition ret {A : Type} (a : A) : M A := fun st => (a, st).

Definition bind {A B : Type} (m : M A) (k : A -> M B) : M B :=
  fun st => let (a, st') := m st in k a st'.

Notation "x <- m ;; k" := (bind m (fun x => k))
  (at level 61, m at next level, right associativity).
Notation "m ;;; k" := (bind m (fun _ => k))
  (at level 61, right associativity).

Definition emit (e : Event) : M unit :=
  fun st =>
    (tt, mkState (host st) (current_image_global st) (currentline st)
                 (trace st ++ [e])).

(** A call of an interpreter method: the event is recorded, the method
    runs on the host state. *)
Definition call {A : Type} (e : Event) (method : H -> A * H) : M A :=
  emit e ;;;
  fun st =>
    let (a, h') := method (host st) in
    (a, mkState h' (current_image_global st) (currentline st) (trace st)).

Definition getglobal_current_image : M Value :=
  fun st => (current_image_global st, st).

Definition setglobal_current_image (v : Value) : M unit :=
  fun st => (tt, mkState (host st) v (currentline st) (trace st)).

Definition string_of_Z (z : Z) : string :=
  DecimalString.NilZero.string_of_int (Z.to_int z).

(** The text that [handle_call_to_c_error] builds in its [stringstream]. *)
Definition error_text (line : Z) (function msg : string) : string :=
  ("ERROR at line " ++ string_of_Z line ++ " calling function " ++ function
   ++ "(): " ++ msg)%string.

(** lua.cpp:51 *)
Definition handle_call_to_c_error (function msg : string) : M unit :=
  fun st =>
    emit (Call_message_box (Some "Error executing Lua script."%string)
                           (error_text (currentline st) function msg) true) st.

(** lua.cpp:64 ([MINIMIZE_CHECKING] is defined, so the argument checks
    under [#ifndef MINIMIZE_CHECKING] are not compiled, here and below). *)
Definition load_image (args : list Value) : M (list Value) :=
  let path := lua_tostring (arg args 1) in
  res <- call (Call_load_image path) (interp_load_image path) ;;
  if success res then ret [Integer (result res 0)]
  else
    let msg := message res in
    handle_call_to_c_error "load_image" msg ;;;
    ret [Nil; Str msg].

(** lua.cpp:88 *)
Definition allocate_image (args : list Value) : M (list Value) :=
  let w := int_wrap (lua_tointeger (arg args 1)) in
  let h := int_wrap (lua_tointeger (arg args 2)) in
  let fail (msg : string) :=
    handle_call_to_c_error "allocate_image" msg ;;;
    ret [Nil; Str msg] in
  if (w <=? 0) || (h <=? 0) then
    fail "Both parameters must be greater than zero."%string
  else
    res <- call (Call_allocate_image w h) (interp_allocate_image w h) ;;
    if success res then ret [Integer (result res 0)]
    else fail (message res).

(** [tolower] in the C locale. *)
Definition tolower (c : Ascii.ascii) : Ascii.ascii :=
  let n := Ascii.N_of_ascii c in
  if ((65 <=? n) && (n <=? 90))%N then Ascii.ascii_of_N (n + 32) else c.

(** lua.cpp:285 *)
Fixpoint to_lower (s : string) : string :=
  match s with
  | EmptyString => EmptyString
  | String c rest => String (tolower c) (to_lower rest)
  end.

(** The [SaveOptions] that [save_image] builds from its arguments
    (lua.cpp:301-320). *)
Definition save_image_options (args : list Value) : SaveOptions :=
  let opt := default_options in
  if (3 <=? List.length args)%nat && lua_istable (arg args 3) then
    let opt :=
      let v := lua_gettable (arg args 3) "format" in
      if lua_isstring v
      then mkSaveOptions (to_lower (lua_tostring v)) (compression opt)
      else opt in
    let opt :=
      let v := lua_gettable (arg args 3) "compression" in
      if lua_isnumber v
      then mkSaveOptions (format opt) (int_wrap (lua_tointeger v))
      else opt in
    opt
  else opt.

(** lua.cpp:289 *)
Definition save_image (args : list Value) : M (list Value) :=
  let handle := int_wrap (lua_tointeger (arg args 1)) in
  let opt := save_image_options args in
  let path := lua_tostring (arg args 2) in
  res <- call (Call_save_image handle path opt)
              (interp_save_image handle path opt) ;;
  if success res then ret [Boolean true]
  else
    handle_call_to_c_error "save_image" (message res) ;;;
    ret [Boolean false].

(** lua.cpp:366 *)
Definition unload_image (args : list Value) : M (list Value) :=
  let handle := int_wrap (lua_tointeger (arg args 1)) in
  res <- call (Call_unload_image handle) (interp_unload_image handle) ;;
  (if negb (success res)
   then handle_call_to_c_error "unload_image" (message res)
   else ret tt) ;;;
  ret [].

(** lua.cpp:384 *)
Definition get_pixel (args : list Value) : M (list Value) :=
  let negative_msg := "Coordinates may not be negative."%string in
  let p0 := int_wrap (lua_tointeger (arg args 1)) in
  let p1 := int_wrap (lua_tointeger (arg args 2)) in
  if p1 <? 0 then handle_call_to_c_error "get_pixel" negative_msg ;;; ret []
  else
    let p2 := int_wrap (lua_tointeger (arg args 3)) in
    if p2 <? 0 then handle_call_to_c_error "get_pixel" negative_msg ;;; ret []
    else
      res <- call (Call_get_pixel p0 p1 p2) (interp_get_pixel p0 p1 p2) ;;
      if negb (success res) then
        handle_call_to_c_error "get_pixel" (message res) ;;; ret []
      else
        ret [Integer (result res 0); Integer (result res 1);
             Integer (result res 2); Integer (result res 3)].

(** lua.cpp:417 *)
Definition get_image_dimensions (args : list Value) : M (list Value) :=
  if (List.length args <? 1)%nat then
    handle_call_to_c_error "get_image_dimensions" "Not enough parameters." ;;;
    ret []
  else if negb (lua_isnumber (arg args 1)) then
    handle_call_to_c_error "get_image_dimensions"
                           "The parameter should be an integer." ;;;
    ret []
  else
    let img := int_wrap (lua_tointeger (arg args 1)) in
    res <- call (Call_get_image_dimensions img)
                (interp_get_image_dimensions img) ;;
    if negb (success res) then
      handle_call_to_c_error "get_image_dimensions" (message res) ;;; ret []
    else ret [Integer (result res 0); Integer (result res 1)].

(** lua.cpp:562 *)
Definition get_displayed_image (args : list Value) : M (list Value) :=
  v <- getglobal_current_image ;;
  if negb (lua_isnil v) then ret [v]
  else
    image <- call Call_get_caller_image interp_get_caller_image ;;
    setglobal_current_image (Integer image) ;;;
    ret [Integer image].

(** lua.cpp:576 *)
Definition display_in_current_window (args : list Value) : M (list Value) :=
  let handle := int_wrap (lua_tointeger (arg args 1)) in
  res <- call (Call_display_in_current_window handle)
              (interp_display_in_current_window handle) ;;
  if success res then ret [Boolean true]
  else
    handle_call_to_c_error "display_in_current_window" (message res) ;;;
    ret [Boolean false].

(** lua.cpp:335-364: the bitwise primitives work on [lua_Integer]s and
    push the result; missing arguments are read as whatever
    [lua_tointeger] makes of them. *)
Definition bitwise_and (args : list Value) : list Value :=
  [Integer (Z.land (lua_tointeger (arg args 1)) (lua_tointeger (arg args 2)))].

Definition bitwise_or (args : list Value) : list Value :=
  [Integer (Z.lor (lua_tointeger (arg args 1)) (lua_tointeger (arg args 2)))].

Definition bitwise_xor (args : list Value) : list Value :=
  [Integer (Z.lxor (lua_tointeger (arg args 1)) (lua_tointeger (arg args 2)))].

Definition bitwise_not (args : list Value) : list Value :=
  [Integer (Z.lnot (lua_tointeger (arg args 1)))].

(** The argument loop of [zig_zag_order] (lua.cpp:456-462): the first
    argument that is not a number stops the call. *)
Definition all_numbers (args : list Value) : bool :=
  forallb (fun i => lua_isnumber (arg args i)) (seq 1 5).

(** lua.cpp:450, with its argument checks, which are compiled whatever
    [MINIMIZE_CHECKING] says. *)
Definition zig_zag_order (args : list Value) : M (list Value) :=
  if (List.length args <? 5)%nat then
    handle_call_to_c_error "zig_zag_order" "Not enough parameters." ;;;
    ret []
  else if negb (all_numbers args) then
    handle_call_to_c_error "zig_zag_order"
                           "All parameters should be integers." ;;;
    ret []
  else
    let param (i : nat) := int_wrap (lua_tointeger (arg args i)) in
    match ZigZag.zig_zag_order (param 3%nat) (param 4%nat)
                               (param 1%nat) (param 2%nat) (param 5%nat) with
    | Some (x, y, s) => ret [Integer x; Integer y; Integer s]
    | None => ret []
    end.

(** The state a filter run starts in: [init_lua_state] creates a fresh Lua
    state, in which [__current_image] is not set. *)
Definition initial_state (h : H) (line : Z) : State :=
  mkState h Nil line [].

(** [n] calls of [get_displayed_image] one after the other; the values
    each returned, in order. *)
Fixpoint repeat_get_displayed_image (n : nat) : M (list (list Value)) :=
  match n with
  | O => ret []
  | S n' =>
      vs <- get_displayed_image [] ;;
      rest <- repeat_get_displayed_image n' ;;
      ret (vs :: rest)
  end.

End WithHost.

Arguments State H : clear implicits.

(** The store primitives that the failure convention of the bridge is
    about. *)
Inductive Primitive : Type :=
| P_load_image
| P_allocate_image
| P_unload_image
| P_save_image
| P_get_pixel
| P_get_image_dimensions
| P_display_in_current_window.

Definition run {H : Type} {interpreter : LuaInterpreter H}
    {conv : Conversions} (p : Primitive) (args : list Value)
    : State H -> list Value * State H :=
  match p with
  | P_load_image => load_image args
  | P_allocate_image => allocate_image args
  | P_unload_image => unload_image args
  | P_save_image => save_image args
  | P_get_pixel => get_pixel args
  | P_get_image_dimensions => get_image_dimensions args
  | P_display_in_current_window => display_in_current_window args
  end.

(** What a script does with the bridge during a run, as far as the
    caller image goes: calls of store primitives and calls of
    [get_displayed_image], in any order. *)
Inductive ScriptStep : Type :=
| Store_call (p : Primitive) (args : list Value)
| Displayed_image_call.

Definition is_displayed_image_call (s : ScriptStep) : bool :=
  match s with Displayed_image_call => true | Store_call _ _ => false end.

(** The steps of a script one after the other; the values each call
    returned, in order. *)
Fixpoint run_script {H : Type} {interpreter : LuaInterpreter H}
    {conv : Conversions} (steps : list ScriptStep)
    : State H -> list (list Value) * State H :=
  match steps with
  | [] => fun st => ([], st)
  | s :: rest =>
      fun st =>
        let (vs, st1) :=
          match s with
          | Store_call p args => run p args st
          | Displayed_image_call => get_displayed_image [] st
          end in
        let (vss, st2) := run_script rest st1 in
        (vs :: vss, st2)
  end.

(** The values returned by the calls of [get_displayed_image] among the
    results of a script. *)
Fixpoint displayed_images (steps : list ScriptStep)
    (results : list (list Value)) : list (list Value) :=
  match steps, results with
  | Displayed_image_call :: steps', r :: results' =>
      r :: displayed_images steps' results'
  | Store_call _ _ :: steps', _ :: results' =>
      displayed_images steps' results'
  | _, _ => []
  end.

(** The number of times the interpreter was asked for the caller
    image. *)
Definition is_resolution (e : Event) : bool :=
  match e with Call_get_caller_image => true | _ => false end.

Definition resolutions (tr : list Event) : nat :=
  List.length (filter is_resolution tr).

(** The call of the interpreter that a primitive makes for given
    arguments, with what the interpreter answers in the current host
    state; [None] when the primitive stops before calling it. *)
Definition underlying_operation {H : Type} {interpreter : LuaInterpreter H}
    {conv : Conversions} (p : Primitive) (args : list Value) (st : State H)
    : option (Event * CallResult) :=
  let int (i : nat) := int_wrap (lua_tointeger (arg args i)) in
  match p with
  | P_load_image =>
      let path := lua_tostring (arg args 1) in
      Some (Call_load_image path, fst (interp_load_image path (host st)))
  | P_allocate_image =>
      if (int 1%nat <=? 0) || (int 2%nat <=? 0) then None
      else Some (Call_allocate_image (int 1%nat) (int 2%nat),
                 fst (interp_allocate_image (int 1%nat) (int 2%nat) (host st)))
  | P_unload_image =>
      Some (Call_unload_image (int 1%nat),
            fst (interp_unload_image (int 1%nat) (host st)))
  | P_save_image =>
      let path := lua_tostring (arg args 2) in
      let opt := save_image_options args in
      Some (Call_save_image (int 1%nat) path opt,
            fst (interp_save_image (int 1%nat) path opt (host st)))
  | P_get_pixel =>
      if (int 2%nat <? 0) || (int 3%nat <? 0) then None
      else Some (Call_get_pixel (int 1%nat) (int 2%nat) (int 3%nat),
                 fst (interp_get_pixel (int 1%nat) (int 2%nat) (int 3%nat)
                                       (host st)))
  | P_get_image_dimensions =>
      if (List.length args <? 1)%nat || negb (lua_isnumber (arg args 1))
      then None
      else Some (Call_get_image_dimensions (int 1%nat),
                 fst (interp_get_image_dimensions (int 1%nat) (host st)))
  | P_display_in_current_window =>
      Some (Call_display_in_current_window (int 1%nat),
            fst (interp_display_in_current_window (int 1%nat) (host st)))
  end.

(** The name a primitive gives to [handle_call_to_c_error]
    ([__FUNCTION__]). *)
Definition function_name (p : Primitive) : string :=
  match p with
  | P_load_image => "load_image"
  | P_allocate_image => "allocate_image"
  | P_unload_image => "unload_image"
  | P_save_image => "save_image"
  | P_get_pixel => "get_pixel"
  | P_get_image_dimensions => "get_image_dimensions"
  | P_display_in_current_window => "display_in_current_window"
  end.

(** The values each primitive pushes when the interpreter's call has
    failed with message [msg]. *)
Definition failure_values (p : Primitive) (msg : string) : list Value :=
  match p with
  | P_load_image | P_allocate_image => [Nil; Str msg]
  | P_save_image | P_display_in_current_window => [Boolean false]
  | P_unload_image | P_get_pixel | P_get_image_dimensions => []
  end.

(** The values each primitive pushes when the interpreter's call has
    succeeded with the result [res]. *)
Definition success_values (p : Primitive) (res : CallResult) : list Value :=
  match p with
  | P_load_image | P_allocate_image => [Integer (result res 0)]
  | P_save_image | P_display_in_current_window => [Boolean true]
  | P_unload_image => []
  | P_get_pixel =>
      [Integer (result res 0); Integer (result res 1);
       Integer (result res 2); Integer (result res 3)]
  | P_get_image_dimensions => [Integer (result res 0); Integer (result res 1)]
  end.

(** The range of an [int]. *)
Definition is_int (z : Z) : Prop := - 2 ^ 31 <= z < 2 ^ 31.

(** What the checks of the bridge guarantee of a call of the interpreter:
    every number passed is an [int], the dimensions of a new image are
    positive and the coordinates of a pixel are not negative. *)
Definition guarded (e : Event) : Prop :=
  match e with
  | Call_allocate_image w h => (0 < w /\ is_int w) /\ (0 < h /\ is_int h)
  | Call_get_pixel handle x y =>
      is_int handle /\ (0 <= x /\ is_int x) /\ (0 <= y /\ is_int y)
  | Call_unload_image handle
  | Call_get_image_dimensions handle
  | Call_display_in_current_window handle => is_int handle
  | Call_save_image handle _ opt => is_int handle
  | Call_load_image _ | Call_get_caller_image | Call_message_box _ _ _ => True
  end.

Definition is_message_box (e : Event) : bool :=
  match e with Call_message_box _ _ _ => true | _ => false end.

(** The upper-case letters of ASCII, which [tolower] changes. *)
Definition is_upper (c : Ascii.ascii) : bool :=
  let n := Ascii.N_of_ascii c in ((65 <=? n) && (n <=? 90))%N.

Definition lower_case (s : string) : Prop :=
  Forall (fun c => is_upper c = false) (list_ascii_of_string s).

(** Lua's truth: everything but [nil] and [false] is true. *)
Definition truthy (v : Value) : bool :=
  match v with Nil | Boolean false => false | _ => true end.

(** The failure signal of the specification: a first value that is not
    true, followed by an error-message string. *)
Definition falsy_with_message (vs : list Value) : Prop :=
  exists v msg rest, vs = v :: Str msg :: rest /\ truthy v = false.

(** Two hosts without a state to evaluate the bridge on: one on which
    every operation fails with the message [msg], one on which every
    operation succeeds. *)
Definition failing_host (msg : string) : LuaInterpreter unit := {|
  interp_load_image _ h := (mkCallResult false [] msg, h);
  interp_allocate_image _ _ h := (mkCallResult false [] msg, h);
  interp_unload_image _ h := (mkCallResult false [] msg, h);
  interp_save_image _ _ _ h := (mkCallResult false [] msg, h);
  interp_get_pixel _ _ _ h := (mkCallResult false [] msg, h);
  interp_get_image_dimensions _ h := (mkCallResult false [] msg, h);
  interp_display_in_current_window _ h := (mkCallResult false [] msg, h);
  interp_get_caller_image h := (0, h);
  default_options := mkSaveOptions EmptyString (-1)
|}.

Definition accepting_host : LuaInterpreter unit := {|
  interp_load_image _ h := (mkCallResult true [1] EmptyString, h);
  interp_allocate_image _ _ h := (mkCallResult true [2] EmptyString, h);
  interp_unload_image _ h := (mkCallResult true [] EmptyString, h);
  interp_save_image _ _ _ h := (mkCallResult true [] EmptyString, h);
  interp_get_pixel _ _ _ h := (mkCallResult true [0; 0; 0; 0] EmptyString, h);
  interp_get_image_dimensions _ h := (mkCallResult true [1; 1] EmptyString, h);
  interp_display_in_current_window _ h := (mkCallResult true [] EmptyString, h);
  interp_get_caller_image h := (7, h);
  default_options := mkSaveOptions EmptyString (-1)
|}.


End Bridge.

(** ** Traversal *)

Module Traversal.

Import Lua.

(** [pixel_t], a [std::array<std::uint8_t, 4>] in the order R, G, B, A. *)
Definition pixel_t : Type := (byte * byte * byte * byte)%type.

Definition channel (b : byte) : Z := Z.of_N (Byte.to_N b).

(** [(std::uint8_t)c] *)
Definition to_uint8 (c : Z) : byte :=
  match Byte.of_N (Z.to_N (c mod 256)) with
  | Some b => b
  | None => x00
  end.

(** Modelled from the spec: the Image of the data model (its class is not
    among the sources): width and height in pixels, a row-major buffer of
    four-channel pixels, and the cursor (column, row) of the pixel being
    visited by a traversal. *)
Record Image : Type := mkImage {
  width : nat;
  height : nat;
  buffer : list pixel_t;
  cursor : nat * nat
}.

Definition transparent_black : pixel_t := (x00, x00, x00, x00).

Definition offset (img : Image) (x y : nat) : nat := y * width img + x.

Definition pixel_at (img : Image) (x y : nat) : pixel_t :=
  nth (offset img x y) (buffer img) transparent_black.

Fixpoint replace_nth {A : Type} (n : nat) (a : A) (l : list A) : list A :=
  match l, n with
  | [], _ => []
  | _ :: rest, O => a :: rest
  | b :: rest, S n' => b :: replace_nth n' a rest
  end.

Definition write_at_cursor (img : Image) (p : pixel_t) : Image :=
  let (x, y) := cursor img in
  mkImage (width img) (height img)
          (replace_nth (offset img x y) p (buffer img)) (cursor img).

Definition move_cursor (img : Image) (x y : nat) : Image :=
  mkImage (width img) (height img) (buffer img) (x, y).

(** Modelled from the spec: the Image Store (its class is not among the
    sources): a table from handles to Images, and the reference to the
    Image being traversed, kept here as its handle. *)
Record Store : Type := mkStore {
  images : list (Z * Image);
  traversing : option Z
}.

Fixpoint find_image (handle : Z) (table : list (Z * Image)) : option Image :=
  match table with
  | [] => None
  | (k, img) :: rest => if k =? handle then Some img else find_image handle rest
  end.

Fixpoint put_image (handle : Z) (img : Image) (table : list (Z * Image))
    : list (Z * Image) :=
  match table with
  | [] => []
  | (k, old) :: rest =>
      if k =? handle then (k, img) :: rest
      else (k, old) :: put_image handle img rest
  end.

(** What a run of a script leaves behind, as far as a traversal goes: the
    store, the calls of Lua functions made from C with their arguments
    ([lua_call]), and the messages given to [handle_call_to_c_error]. *)
Record World : Type := mkWorld {
  store : Store;
  lua_calls : list (list Value);
  errors : list string
}.

(** Modelled from the spec: [set_current_pixel] of the store writes the
    pixel under the cursor of the Image being traversed and fails with
    [NoActiveTraversal] when there is none. *)
Definition store_set_current_pixel (rgba : pixel_t) (st : Store)
    : Result Store :=
  match traversing st with
  | None => Err "NoActiveTraversal"
  | Some handle =>
      match find_image handle (images st) with
      | None => Err "HandleNotFound"
      | Some img =>
          Ok (mkStore (put_image handle (write_at_cursor img rgba) (images st))
                      (traversing st))
      end
  end.

Section WithLua.

Context {conv : Conversions}.

(** lua.cpp:257: the first channel out of [0; 255] stops the call. *)
Definition set_current_pixel (args : list Value) (w : World) : World :=
  let c (i : nat) := int_wrap (lua_tointeger (arg args i)) in
  let bad (i : nat) := (c i <? 0) || (255 <? c i) in
  if bad 1%nat || bad 2%nat || bad 3%nat || bad 4%nat then
    mkWorld (store w) (lua_calls w)
            (errors w ++ ["All parameters should be in the range [0; 255]."%string])
  else
    let rgba : pixel_t :=
      (to_uint8 (c 1%nat), to_uint8 (c 2%nat),
       to_uint8 (c 3%nat), to_uint8 (c 4%nat)) in
    match store_set_current_pixel rgba (store w) with
    | Ok st => mkWorld st (lua_calls w) (errors w)
    | Err _ => w
    end.

(** A Lua function used as a traversal callback, by what it does to the
    image: the argument lists of the calls of [set_current_pixel] it makes,
    in order, given its own arguments. *)
Definition LuaCallback : Type := list Value -> list (list Value).

(** [lua_call(state, nargs, 0)] on the callback: the call is recorded and
    the body runs. *)
Definition lua_call (fn : LuaCallback) (args : list Value) (w : World)
    : World :=
  let w := mkWorld (store w) (lua_calls w ++ [args]) (errors w) in
  fold_left (fun w a => set_current_pixel a w) (fn args) w.

(** The lambda that [traverse_image] hands to the interpreter
    (lua.cpp:134-144): the callback is the function at stack index 2. *)
Definition traverse_image_callback (fn : LuaCallback)
    (r g b a x y : Z) : World -> World :=
  lua_call fn [Integer r; Integer g; Integer b; Integer a;
               Integer x; Integer y].

(** The type of the function pointer [interpreter->traverse] takes, with
    the [void *] argument already bound. *)
Definition traversal_callback_t : Type :=
  Z -> Z -> Z -> Z -> Z -> Z -> World -> World.

(** One visit: the cursor moves to [(x, y)], the pixel there is read and
    handed to the callback. *)
Definition visit (handle : Z) (cb : traversal_callback_t) (x y : nat)
    (w : World) : World :=
  match find_image handle (images (store w)) with
  | None => w
  | Some img =>
      let img := move_cursor img x y in
      let '(r, g, b, a) := pixel_at img x y in
      let st := mkStore (put_image handle img (images (store w)))
                        (traversing (store w)) in
      cb (channel r) (channel g) (channel b) (channel a)
         (Z.of_nat x) (Z.of_nat y)
         (mkWorld st (lua_calls w) (errors w))
  end.

(** Modelled from the spec: [traverse] of the store (not among the
    sources) sets the reference to the Image being traversed, then calls
    the callback once per pixel, row 0 first and columns left to right
    within a row; an unknown handle fails with [HandleNotFound]. *)
Definition store_traverse (handle : Z) (cb : traversal_callback_t)
    (w : World) : Result World :=
  match find_image handle (images (store w)) with
  | None => Err "HandleNotFound"
  | Some img =>
      let w := mkWorld (mkStore (images (store w)) (Some handle))
                       (lua_calls w) (errors w) in
      let w :=
        fold_left
          (fun w y =>
             fold_left (fun w x => visit handle cb x y w)
                       (seq 0 (width img)) w)
          (seq 0 (height img)) w in
      Ok (mkWorld (mkStore (images (store w)) None) (lua_calls w) (errors w))
  end.

(** lua.cpp:118: the result of [interpreter->traverse] is not looked at
    and nothing is pushed. *)
Definition traverse_image (args : list Value) (fn : LuaCallback)
    (w : World) : list Value * World :=
  let imgno := int_wrap (lua_tointeger (arg args 1)) in
  match store_traverse imgno (traverse_image_callback fn) w with
  | Ok w' => ([], w')
  | Err _ => ([], w)
  end.

End WithLua.

(** The six arguments of the callback for the pixel [p] at [(x, y)]. *)
Definition callback_arguments (p : pixel_t) (x y : nat) : list Value :=
  let '(r, g, b, a) := p in
  [Integer (channel r); Integer (channel g); Integer (channel b);
   Integer (channel a); Integer (Z.of_nat x); Integer (Z.of_nat y)].

(** The calls of the callback that a traversal of [img] should make, row
    by row. *)
Definition row_major_calls (img : Image) : list (list Value) :=
  flat_map
    (fun y => map (fun x => callback_arguments (pixel_at img x y) x y)
                  (seq 0 (width img)))
    (seq 0 (height img)).

(** What holds of the world between two visits of a traversal of the
    image [img] under [handle]: the image in the store has the size of
    [img] and its pixels from offset [from] on are those of [img]. *)
Definition unvisited_from (handle : Z) (img : Image) (from : nat)
    (w : World) : Prop :=
  exists img',
    find_image handle (images (store w)) = Some img' /\
    traversing (store w) = Some handle /\
    width img' = width img /\
    forall i, (from <= i)%nat ->
      nth i (buffer img') transparent_black =
      nth i (buffer img) transparent_black.

(** What holds while the callback runs for the pixel at [(x, y)]. *)
Definition visiting (handle : Z) (img : Image) (x y : nat)
    (w : World) : Prop :=
  exists img',
    find_image handle (images (store w)) = Some img' /\
    traversing (store w) = Some handle /\
    width img' = width img /\
    cursor img' = (x, y) /\
    forall i, (offset img x y < i)%nat ->
      nth i (buffer img') transparent_black =
      nth i (buffer img) transparent_black.

(** A callback argument list is made of four 8-bit channels and a
    position inside the image. *)
Definition well_formed_call (img : Image) (call : list Value) : Prop :=
  exists r g b a x y : Z,
    call = [Integer r; Integer g; Integer b; Integer a;
            Integer x; Integer y] /\
    0 <= r <= 255 /\ 0 <= g <= 255 /\ 0 <= b <= 255 /\ 0 <= a <= 255 /\
    0 <= x < Z.of_nat (width img) /\ 0 <= y < Z.of_nat (height img).

(** A 2 by 2 image under handle 5 and a callback that paints every pixel
    it is given, to evaluate the traversal on. *)
Definition sample_image : Image :=
  mkImage 2 2 [(x01, x02, x03, x04); (x05, x06, x07, x08);
               (x09, x0a, x0b, x0c); (x0d, x0e, x0f, x10)] (0%nat, 0%nat).

Definition sample_world : World :=
  mkWorld (mkStore [(5, sample_image)] None) [] [].

Definition painting_callback : LuaCallback :=
  fun _ => [[Integer 10; Integer 20; Integer 30; Integer 255]].

End Traversal.

(** ** The shortcut list of the options dialog *)

Module Shortcuts.

(** A [QKeySequence], by its key codes. *)
Definition QKeySequence : Type := list Z.

Definition QKeySequence_eqb (a b : QKeySequence) : bool :=
  if list_eq_dec Z.eq_dec a b then true else false.

Record ShortcutTriple : Type := mkShortcutTriple {
  command : string;
  display_name : string;
  sequence : QKeySequence
}.

(** A default-constructed [ShortcutTriple]. *)
Definition empty_triple : ShortcutTriple :=
  mkShortcutTriple EmptyString EmptyString [].


Section FindAll.

(** [find_all] is a template over a random-access iterator [It] and a
    predicate [F]: an iterator is a position [Z] and [deref] is [*it]. *)
Context {A : Type} (deref : Z -> A) (f : A -> bool).

(** The [while (n > 0)] loop of [find_all], from the values of [first] and
    [n] at a test to the value of [first] at the exit. *)
Equations? find_all_loop (first n : Z) : Z by wf (Z.to_nat n) lt :=
  find_all_loop first n with Z_lt_dec 0 n := {
    | right _ := first
    | left _ with f (deref (first + n ÷ 2)) := {
        | false := find_all_loop (first + n ÷ 2 + 1) (n - (n ÷ 2 + 1))
        | true := find_all_loop first (n ÷ 2) } }.
Proof.
  all: assert (n ÷ 2 < n) by (apply Z.quot_lt; lia).
  all: assert (0 <= n ÷ 2) by (apply Z.quot_pos; lia).
  all: lia.
Qed.

Definition find_all (first last : Z) : Z :=
  find_all_loop first (last - first).

End FindAll.

(** [ShortcutInfo], with the members the dialog reads. *)
Record ShortcutInfo : Type := mkShortcutInfo {
  info_display_name : string;
  info_internal_name : string
}.

(** [ApplicationShortcuts], as far as [add_new_item] uses it, and the
    conversion [QKeySequence(const QString &)] of Qt that the call
    [sequence_already_exists(command)] goes through. *)
Class ApplicationShortcuts : Type := {
  get_shortcut_info : string -> option ShortcutInfo;
  QKeySequence_of_QString : string -> QKeySequence
}.

(** [items[i]] through an iterator of the vector. *)
Definition item_at (items : list ShortcutTriple) (i : Z) : ShortcutTriple :=
  nth (Z.to_nat i) items empty_triple.

(** [std::vector::insert(it, x)] *)
Definition vector_insert (items : list ShortcutTriple) (it : Z)
    (x : ShortcutTriple) : list ShortcutTriple :=
  firstn (Z.to_nat it) items ++ x :: skipn (Z.to_nat it) items.

Definition sequence_already_exists (items : list ShortcutTriple)
    (seq : QKeySequence) : bool :=
  existsb (fun i => QKeySequence_eqb (sequence i) seq) items.

(** The position [add_new_item] inserts at: [find_all] over the whole
    vector with the predicate [info->display_name < a.display_name]. *)
Definition insert_position (items : list ShortcutTriple) (name : string) : Z :=
  find_all (item_at items) (fun a => String.ltb name (display_name a))
           0 (Z.of_nat (List.length items)).

(** [ShortcutListModel::add_new_item]: the new [items] and the position
    given to [item_inserted_at], if the signal is emitted. *)
Definition add_new_item {shortcuts : ApplicationShortcuts}
    (items : list ShortcutTriple) (command : string)
    (sequence : QKeySequence) : list ShortcutTriple * option Z :=
  if sequence_already_exists items (QKeySequence_of_QString command)
  then (items, None)
  else
    match get_shortcut_info command with
    | None => (items, None)
    | Some info =>
        let it := insert_position items (info_display_name info) in
        let position := it - 0 in
        let triple :=
          mkShortcutTriple command (info_display_name info) sequence in
        (vector_insert items it triple, Some position)
    end.

(** [ShortcutListModel::remove_index], for the row [i] of the index: the
    item returned and the items left.  [items[i]] and [erase] are
    undefined outside the vector: [None]. *)
Definition remove_index (items : list ShortcutTriple) (i : Z)
    : option (ShortcutTriple * list ShortcutTriple) :=
  if (0 <=? i) && (i <? Z.of_nat (List.length items)) then
    let ret := item_at items i in
    Some (ret, firstn (Z.to_nat i) items ++ skipn (S (Z.to_nat i)) items)
  else None.




End Shortcuts.

(** ** The directory iterator (DirectoryListing.h)

    [DirectoryIterator] walks the entries of a [DirectoryListing] in a
    circle.  The listing is not changed by the iterator, and the members
    modelled here use its [size()] only. *)

Module Directory.

Section SizeT.

(** The width of [size_t]. *)
Variable bits : Z.

(** Arithmetic of [size_t] is modulo [2 ^ bits]. *)
Definition size_t (z : Z) : Z := z mod 2 ^ bits.

Record DirectoryIterator : Type := mkIterator {
  position : Z;
  in_position : bool
}.

(** [operator++]: [position = (position + 1) % dl->size()].  The
    remainder by zero, on an empty listing, is undefined: [None]. *)
Definition increment (size : Z) (it : DirectoryIterator)
    : option DirectoryIterator :=
  if size =? 0 then None
  else Some (mkIterator (size_t (position it + 1) mod size)
                        (in_position it)).

(** [operator--]: [n = dl->size(); position = (position + n - 1) % n]. *)
Definition decrement (size : Z) (it : DirectoryIterator)
    : option DirectoryIterator :=
  let n := size in
  if n =? 0 then None
  else Some (mkIterator (size_t (size_t (position it + n) - 1) mod n)
                        (in_position it)).

Definition to_start (it : DirectoryIterator) : DirectoryIterator :=
  mkIterator 0 (in_position it).

(** [to_end]: [to_start(); --*this;] *)
Definition to_end (size : Z) (it : DirectoryIterator)
    : option DirectoryIterator :=
  decrement size (to_start it).

End SizeT.

End Directory.

(** * Facts *)

(** ** Doubles as rationals *)

(** Turn the injections of integer literals, in the goal or in a
    hypothesis, into literals of [Q], which [lra] reads. *)
Ltac literal_Z k :=
  lazymatch k with
  | Z0 => idtac
  | Zpos ?p => tryif is_var p then fail else idtac
  | (?a + ?b)%Z => literal_Z a; literal_Z b
  end.

Ltac inject_literals :=
  repeat match goal with
    | |- context [inject_Z ?k] =>
        literal_Z k;
        let v := eval compute in (inject_Z k) in
        change (inject_Z k) with v
    end.


Section RationalFacts.

Import Color.
Local Open Scope Q_scope.

Lemma Qlt_bool_iff (a b : Q) : Qlt_bool a b = true <-> a < b.
Proof.
  unfold Qlt_bool. rewrite negb_true_iff.
  split; intro Hab.
  - apply Qnot_le_lt. intro Hle. apply Qle_bool_iff in Hle. congruence.
  - destruct (Qle_bool b a) eqn:E; [|reflexivity].
    apply Qle_bool_iff in E. exfalso. apply (Qlt_not_le _ _ Hab E).
Qed.

Lemma Qlt_bool_false_iff (a b : Q) : Qlt_bool a b = false <-> b <= a.
Proof.
  unfold Qlt_bool. rewrite negb_false_iff. apply Qle_bool_iff.
Qed.

Lemma Qle_bool_false_iff (a b : Q) : Qle_bool a b = false <-> b < a.
Proof.
  rewrite <- Qlt_bool_iff. unfold Qlt_bool.
  destruct (Qle_bool a b); simpl; intuition congruence.
Qed.

#[global] Instance Qlt_bool_comp : Proper (Qeq ==> Qeq ==> eq) Qlt_bool.
Proof.
  intros a a' Ha b b' Hb. unfold Qlt_bool. now rewrite Ha, Hb.
Qed.

#[global] Instance Qtruncate_comp : Proper (Qeq ==> eq) Qtruncate.
Proof.
  intros a a' Ha. unfold Qtruncate.
  rewrite (Qleb_comp 0 0 (Qeq_refl 0) a a' Ha).
  destruct (Qle_bool 0 a'); [apply Qfloor_comp | apply Qceiling_comp]; exact Ha.
Qed.

#[global] Instance fmod_comp : Proper (Qeq ==> Qeq ==> Qeq) fmod.
Proof.
  intros a a' Ha b b' Hb. unfold fmod.
  assert (E : Qtruncate (a / b) = Qtruncate (a' / b')).
  { apply Qtruncate_comp. now rewrite Ha, Hb. }
  rewrite E, Ha, Hb. reflexivity.
Qed.

#[global] Instance euclidean_modulo_comp :
  Proper (Qeq ==> Qeq ==> Qeq) euclidean_modulo.
Proof.
  intros a a' Ha b b' Hb. unfold euclidean_modulo.
  assert (E1 : (if Qlt_bool a 0 then b - fmod (- a) b else a) ==
               (if Qlt_bool a' 0 then b' - fmod (- a') b' else a')).
  { rewrite <- (Qlt_bool_comp a a' Ha 0 0 (Qeq_refl 0)).
    destruct (Qlt_bool a 0); [|exact Ha].
    apply Qplus_comp; [exact Hb|]. apply Qopp_comp.
    apply fmod_comp; [now apply Qopp_comp | exact Hb]. }
  set (x1 := if Qlt_bool a 0 then _ else _) in *.
  set (x1' := if Qlt_bool a' 0 then _ else _) in *.
  rewrite <- (Qleb_comp b b' Hb x1 x1' E1).
  destruct (Qle_bool b x1); [apply fmod_comp; assumption | exact E1].
Qed.

Lemma Qtruncate_nonneg (q : Q) : 0 <= q -> Qtruncate q = Qfloor q.
Proof.
  intro Hq. unfold Qtruncate.
  apply Qle_bool_iff in Hq. now rewrite Hq.
Qed.

(** The floor of [q] is the only integer [k] with [k <= q < k + 1]. *)
Lemma Qfloor_unique (q : Q) (k : Z) :
  inject_Z k <= q -> q < inject_Z (k + 1) -> Qfloor q = k.
Proof.
  intros Hlo Hhi.
  assert (H1 : (k <= Qfloor q)%Z).
  { rewrite <- (Qfloor_Z k). now apply Qfloor_resp_le. }
  assert (H2 : (Qfloor q < k + 1)%Z).
  { rewrite Zlt_Qlt. eapply Qle_lt_trans; [apply Qfloor_le | exact Hhi]. }
  lia.
Qed.

Lemma inject_Z_nonneg (k : Z) : (0 <= k)%Z -> 0 <= inject_Z k.
Proof.
  intro Hk. change 0 with (inject_Z 0). rewrite <- Zle_Qle. exact Hk.
Qed.

(** [fmod] of a non-negative [x] by a positive [y], when [x] lies in the
    [k]-th interval of length [y]. *)
Lemma fmod_interval (x y : Q) (k : Z) :
  0 < y -> (0 <= k)%Z ->
  inject_Z k * y <= x -> x < inject_Z (k + 1) * y ->
  fmod x y == x - inject_Z k * y.
Proof.
  intros Hy Hk Hlo Hhi.
  assert (Hk' : 0 <= inject_Z k) by (apply inject_Z_nonneg; exact Hk).
  assert (Hx : 0 <= x).
  { apply Qle_trans with (inject_Z k * y); [|exact Hlo].
    apply Qmult_le_0_compat; [exact Hk' | apply Qlt_le_weak; exact Hy]. }
  assert (Hq : 0 <= x / y).
  { apply Qle_shift_div_l; [exact Hy | lra]. }
  unfold fmod. rewrite (Qtruncate_nonneg _ Hq).
  rewrite (Qfloor_unique (x / y) k).
  - reflexivity.
  - apply Qle_shift_div_l; assumption.
  - apply Qlt_shift_div_r; assumption.
Qed.

Lemma fmod_range (x y : Q) : 0 <= x -> 0 < y -> 0 <= fmod x y /\ fmod x y < y.
Proof.
  intros Hx Hy.
  assert (Hq : 0 <= x / y) by (apply Qle_shift_div_l; [exact Hy | lra]).
  assert (Hxy : x / y * y == x) by (field; lra).
  pose proof (Qfloor_le (x / y)) as Hlo.
  pose proof (Qlt_floor (x / y)) as Hhi.
  assert (Hk : (0 <= Qfloor (x / y))%Z).
  { rewrite <- (Qfloor_Z 0). apply Qfloor_resp_le. exact Hq. }
  apply (Qmult_le_compat_r _ _ y) in Hlo; [|lra].
  apply (Qmult_lt_compat_r _ _ y) in Hhi; [|exact Hy].
  rewrite Hxy in Hlo, Hhi.
  rewrite (fmod_interval x y (Qfloor (x / y)) Hy Hk Hlo Hhi).
  rewrite inject_Z_plus in Hhi. change (inject_Z 1) with 1 in Hhi.
  split; lra.
Qed.

(** Inside [[0, y)] [euclidean_modulo] returns its argument as it is. *)
Lemma euclidean_modulo_id (x y : Q) :
  0 <= x -> x < y -> euclidean_modulo x y = x.
Proof.
  intros Hx Hy. unfold euclidean_modulo.
  apply Qlt_bool_false_iff in Hx. rewrite Hx.
  apply Qle_bool_false_iff in Hy. rewrite Hy. reflexivity.
Qed.



Lemma euclidean_modulo_range (x y : Q) :
  0 < y -> 0 <= euclidean_modulo x y /\ euclidean_modulo x y < y.
Proof.
  intro Hy. unfold euclidean_modulo.
  set (x1 := if Qlt_bool x 0 then y - fmod (- x) y else x).
  assert (H1 : 0 <= x1).
  { unfold x1. destruct (Qlt_bool x 0) eqn:E.
    - apply Qlt_bool_iff in E.
      destruct (fmod_range (- x) y); [lra | exact Hy | lra].
    - apply Qlt_bool_false_iff in E. exact E. }
  destruct (Qle_bool y x1) eqn:E.
  - apply fmod_range; assumption.
  - apply Qle_bool_false_iff in E. split; assumption.
Qed.

End RationalFacts.

(** ** HSV to RGB *)

Section HsvToRgbFacts.

Import Color.
Local Open Scope Q_scope.



(** The fraction [1 - |t - 1|] of the chroma that goes to the middle
    channel, for [t = euclidean_modulo (h / 60) 2]. *)
Local Abbreviation ramp h := (1 - Qabs (euclidean_modulo (h / 60) 2 - 1)).



(** A hue already in [[0, 360)] is not changed by the reduction. *)
Lemma hsv_to_rgb_reduced (hue sat val : Q) :
  hsv_to_rgb hue sat val = hsv_to_rgb (euclidean_modulo hue 360) sat val.
Proof.
  destruct (euclidean_modulo_range hue 360) as [Hlo Hhi]; [lra|].
  unfold hsv_to_rgb.
  rewrite (euclidean_modulo_id (euclidean_modulo hue 360) 360 Hlo Hhi).
  reflexivity.
Qed.





End HsvToRgbFacts.

(** ** RGB to HSV *)

Section RgbToHsvFacts.

Import Color.
Local Open Scope Q_scope.

Lemma Qmax3_spec (r g b : Q) :
  let M := Qmax r (Qmax g b) in
  r <= M /\ g <= M /\ b <= M /\ (M == r \/ M == g \/ M == b).
Proof.
  intro M. unfold M.
  destruct (Q.max_spec g b) as [[H1 E1] | [H1 E1]];
    destruct (Q.max_spec r (Qmax g b)) as [[H2 E2] | [H2 E2]];
    rewrite E2; rewrite ?E1 in *; repeat split;
      try lra; auto using Qeq_refl.
Qed.

Lemma Qmin3_spec (r g b : Q) :
  let m := Qmin r (Qmin g b) in
  m <= r /\ m <= g /\ m <= b /\ (m == r \/ m == g \/ m == b).
Proof.
  intro m. unfold m.
  destruct (Q.min_spec g b) as [[H1 E1] | [H1 E1]];
    destruct (Q.min_spec r (Qmin g b)) as [[H2 E2] | [H2 E2]];
    rewrite E2; rewrite ?E1 in *; repeat split;
      try lra; auto using Qeq_refl.
Qed.

Lemma out_of_byte_range_false (c : Q) :
  0 <= c -> c <= 255 -> out_of_byte_range c = false.
Proof.
  intros H0 H1. unfold out_of_byte_range.
  apply Qlt_bool_false_iff in H0, H1. now rewrite H0, H1.
Qed.

(** What [rgb_to_hsv] pushes for channels in range, in terms of the
    largest and the smallest normalised channel. *)
Lemma rgb_to_hsv_ok (r0 g0 b0 : Q) :
  0 <= r0 -> r0 <= 255 -> 0 <= g0 -> g0 <= 255 -> 0 <= b0 -> b0 <= 255 ->
  let r := r0 / 255 in
  let g := g0 / 255 in
  let b := b0 / 255 in
  let M := Qmax r (Qmax g b) in
  let m := Qmin r (Qmin g b) in
  let d := M - m in
  exists h s : Q,
    rgb_to_hsv r0 g0 b0 = Ok (h, s, M) /\
    M * s == d /\ 0 <= s /\ s <= 1 /\
    ((d == 0 /\ h = 0) \/ (0 < d /\ h = hue_sextant r g b M d * 60)).
Proof.
  intros Hr0 Hr1 Hg0 Hg1 Hb0 Hb1 r g b M m d.
  unfold rgb_to_hsv.
  rewrite !out_of_byte_range_false by assumption.
  fold r g b. fold M m. fold d.
  assert (Hr : r0 / 255 == r0 * (1 # 255)) by field.
  assert (Hg : g0 / 255 == g0 * (1 # 255)) by field.
  assert (Hb : b0 / 255 == b0 * (1 # 255)) by field.
  fold r in Hr. fold g in Hg. fold b in Hb.
  destruct (Qmax3_spec r g b) as (HM1 & HM2 & HM3 & HM).
  destruct (Qmin3_spec r g b) as (Hm1 & Hm2 & Hm3 & Hm).
  fold M in HM1, HM2, HM3, HM. fold m in Hm1, Hm2, Hm3, Hm.
  assert (Hd0 : 0 <= d) by (unfold d; lra).
  assert (HdM : d <= M) by (unfold d; lra).
  do 2 eexists. split; [reflexivity|].
  destruct (Qeq_bool M 0) eqn:EM.
  - apply Qeq_bool_iff in EM.
    assert (Hdz : d == 0) by lra.
    repeat split; try lra.
    left. split; [exact Hdz|].
    apply Qeq_bool_iff in Hdz. now rewrite Hdz.
  - apply Qeq_bool_neq in EM.
    assert (HMpos : 0 < M).
    { apply Qnot_le_lt. intro Hle. apply EM. lra. }
    assert (Hs : M * (d / M) == d) by (field; exact EM).
    split; [exact Hs|].
    split; [apply Qle_shift_div_l; [exact HMpos | lra]|].
    split; [apply Qle_shift_div_r; [exact HMpos | lra]|].
    destruct (Qeq_bool d 0) eqn:Ed.
    + apply Qeq_bool_iff in Ed. left. split; [exact Ed | reflexivity].
    + apply Qeq_bool_neq in Ed.
      destruct (Qeq_bool (d / M) 0) eqn:Es.
      * apply Qeq_bool_iff in Es. exfalso. apply Ed.
        rewrite <- Hs, Es. ring.
      * right. split; [|reflexivity].
        apply Qnot_le_lt. intro Hle. apply Ed. lra.
Qed.




End RgbToHsvFacts.

(** ** The round trip *)

Section RoundTripFacts.

Import Color.
Local Open Scope Q_scope.

Lemma Ok_triple (a b c a' b' c' : Z) :
  a = a' -> b = b' -> c = c' ->
  @Ok (Z * Z * Z) (a, b, c) = Ok (a', b', c').
Proof. congruence. Qed.




(** C1.  At pure red the saturation and the value pushed by [rgb_to_hsv]
    are both 1, not 255, and at [(128, 64, 64)] the saturation is one half
    and the value [128/255]: they are ratios in [[0, 1]], not integers on
    the scale of the arguments. *)
Theorem rgb_to_hsv_unit_scale :
  (exists h s v : Q,
     rgb_to_hsv 255 0 0 = Ok (h, s, v) /\
     h == 0 /\ s == 1 /\ v == 1 /\ ~ s == 255 /\ ~ v == 255) /\
  (exists h s v : Q,
     rgb_to_hsv 128 64 64 = Ok (h, s, v) /\
     h == 0 /\ s == 1 # 2 /\ v == 128 # 255 /\
     (forall z : Z, ~ s == inject_Z z) /\ (forall z : Z, ~ v == inject_Z z)).
Proof.
  split.
  - do 3 eexists. split; [vm_compute; reflexivity|].
    repeat split; try reflexivity; intro Habs; discriminate Habs.
  - do 3 eexists. split; [vm_compute; reflexivity|].
    repeat split; try reflexivity;
      intros z Habs; unfold Qeq in Habs; cbn in Habs; lia.
Qed.

End RoundTripFacts.

(** ** The zig-zag scan order *)

Section ZigZagFacts.

Import ZigZag.

Variables w h : Z.

(** One test of the loop with [repeat = 1]: the body runs with
    [repeat = 0]. *)
Lemma loop_run (n : nat) (x y s : Z) :
  loop w h (S n) (mkLocals x y s 1) = loop w h n (switch w h (mkLocals x y s 0)).
Proof. reflexivity. Qed.

(** One test of the loop with [repeat = 0]: the loop is left. *)
Lemma loop_stop (n : nat) (x y s : Z) :
  loop w h (S n) (mkLocals x y s 0) = Some (mkLocals x y s (-1)).
Proof. reflexivity. Qed.

(** Runs the body once and splits on the tests it makes. *)
Ltac run_switch :=
  rewrite loop_run; unfold switch, again;
  cbn [lx ly ls lrepeat Z.eqb Pos.eqb
       Initial RightwardsOnTop DownLeft DownwardsOnLeft UpRight
       DownwardsOnRight RightwardsOnBottom End];
  change (inc 0) with 1;
  repeat match goal with
    | |- context [if ?c then _ else _] => destruct c eqn:?
    end;
  try (rewrite loop_stop; eexists; reflexivity).

Lemma loop_from_End (n : nat) (x y : Z) :
  loop w h (S (S n)) (mkLocals x y End 1) = Some (mkLocals x y End (-1)).
Proof. reflexivity. Qed.

Lemma loop_from_DownwardsOnRight (n : nat) (x y : Z) :
  exists l, loop w h (S (S (S n))) (mkLocals x y DownwardsOnRight 1) = Some l.
Proof.
  run_switch. rewrite (loop_from_End n). eexists; reflexivity.
Qed.

Lemma loop_from_RightwardsOnBottom (n : nat) (x y : Z) :
  exists l, loop w h (S (S (S n))) (mkLocals x y RightwardsOnBottom 1) = Some l.
Proof.
  run_switch. rewrite (loop_from_End n). eexists; reflexivity.
Qed.

Lemma loop_from_DownwardsOnLeft (n : nat) (x y : Z) :
  exists l,
    loop w h (S (S (S (S n)))) (mkLocals x y DownwardsOnLeft 1) = Some l.
Proof.
  run_switch. apply (loop_from_RightwardsOnBottom n).
Qed.

Lemma loop_from_RightwardsOnTop (n : nat) (x y : Z) :
  exists l,
    loop w h (S (S (S (S n)))) (mkLocals x y RightwardsOnTop 1) = Some l.
Proof.
  run_switch. apply (loop_from_DownwardsOnRight n).
Qed.

Lemma loop_from_DownLeft (n : nat) (x y : Z) :
  exists l,
    loop w h (S (S (S (S (S n))))) (mkLocals x y DownLeft 1) = Some l.
Proof.
  run_switch.
  - apply (loop_from_RightwardsOnBottom (S n)).
  - apply (loop_from_DownwardsOnLeft n).
Qed.

Lemma loop_from_UpRight (n : nat) (x y : Z) :
  exists l,
    loop w h (S (S (S (S (S n))))) (mkLocals x y UpRight 1) = Some l.
Proof.
  run_switch.
  - apply (loop_from_DownwardsOnRight (S n)).
  - apply (loop_from_RightwardsOnTop n).
Qed.

(** From [repeat = 1] the loop of [zig_zag_order] finishes within
    [loop_fuel] tests, whatever the state and the position. *)
Lemma loop_total (x y s : Z) :
  exists l, loop w h loop_fuel (mkLocals x y s 1) = Some l.
Proof.
  unfold loop_fuel.
  destruct (Z.eq_dec s UpRight) as [-> | H1];
    [apply (loop_from_UpRight 1)|].
  destruct (Z.eq_dec s DownLeft) as [-> | H2];
    [apply (loop_from_DownLeft 1)|].
  destruct (Z.eq_dec s RightwardsOnTop) as [-> | H3];
    [apply (loop_from_RightwardsOnTop 2)|].
  destruct (Z.eq_dec s DownwardsOnLeft) as [-> | H4];
    [apply (loop_from_DownwardsOnLeft 2)|].
  destruct (Z.eq_dec s DownwardsOnRight) as [-> | H5];
    [apply (loop_from_DownwardsOnRight 3)|].
  destruct (Z.eq_dec s RightwardsOnBottom) as [-> | H6];
    [apply (loop_from_RightwardsOnBottom 3)|].
  apply Z.eqb_neq in H1, H2, H3, H4, H5, H6.
  rewrite loop_run. unfold switch.
  cbn [lx ly ls lrepeat]. rewrite H1, H2, H3, H4, H5, H6.
  destruct (s =? Initial); [rewrite loop_stop; eexists; reflexivity|].
  destruct (s =? End); rewrite loop_stop; eexists; reflexivity.
Qed.

(** [zig_zag_order] is total. *)
Lemma zig_zag_order_total (x y s : Z) :
  exists x' y' s', zig_zag_order w h x y s = Some (x', y', s').
Proof.
  unfold zig_zag_order.
  destruct (atbottom h (mkLocals x y s 1) && allright w (mkLocals x y s 1)).
  - destruct (loop_total x y End) as [l ->]. do 3 eexists. reflexivity.
  - destruct (loop_total x y s) as [l ->]. do 3 eexists. reflexivity.
Qed.

(** In the state [End] a call changes nothing. *)
Lemma zig_zag_order_End (x y : Z) :
  zig_zag_order w h x y End = Some (x, y, End).
Proof.
  unfold zig_zag_order.
  destruct (atbottom h (mkLocals x y End 1) && allright w (mkLocals x y End 1));
    reflexivity.
Qed.

End ZigZagFacts.

(** C6.  Driving [zig_zag_order] from [Initial] at [(0, 0)] on a 3 by 3
    grid until it returns [End] yields nine coordinates, all different,
    that cover the grid; and in the state [End] a call returns the
    position it was given and [End] again, for every position and every
    grid. *)
Theorem zig_zag_3x3_covers_and_End_is_final :
  (exists visited : list (Z * Z),
     ZigZag.drive 10 3 3 0 0 ZigZag.Initial = Some visited /\
     visited = [(0, 0); (1, 0); (0, 1); (0, 2); (1, 1);
                (2, 0); (2, 1); (1, 2); (2, 2)] /\
     List.length visited = 9%nat /\
     NoDup visited /\
     incl (list_prod [0; 1; 2] [0; 1; 2]) visited) /\
  (forall w h x y : Z,
     ZigZag.zig_zag_order w h x y ZigZag.End = Some (x, y, ZigZag.End)).
Proof.
  split.
  - eexists. split; [vm_compute; reflexivity|].
    split; [reflexivity|]. split; [reflexivity|]. split.
    + repeat (constructor; [cbn; intuition discriminate|]). constructor.
    + intros p Hp. cbn in Hp |- *. intuition.
  - intros w h x y. apply zig_zag_order_End.
Qed.

(** ** The failure convention of the bridge *)

Section BridgeFacts.

Import Lua Bridge.

Context {H : Type} {interpreter : LuaInterpreter H} {conv : Conversions}.

(** Unfolds a primitive down to the calls of the interpreter. *)
Ltac unfold_primitive :=
  unfold run, underlying_operation,
    load_image, allocate_image, unload_image, save_image, get_pixel,
    get_image_dimensions, display_in_current_window,
    handle_call_to_c_error, call, emit, bind, ret.

(** Names the answer of every call of the interpreter in the goal. *)
Ltac name_answers :=
  repeat match goal with
    | |- context [interp_load_image ?a ?h] =>
        destruct (interp_load_image a h) as [? ?]
    | |- context [interp_allocate_image ?a ?b ?h] =>
        destruct (interp_allocate_image a b h) as [? ?]
    | |- context [interp_unload_image ?a ?h] =>
        destruct (interp_unload_image a h) as [? ?]
    | |- context [interp_save_image ?a ?b ?c ?h] =>
        destruct (interp_save_image a b c h) as [? ?]
    | |- context [interp_get_pixel ?a ?b ?c ?h] =>
        destruct (interp_get_pixel a b c h) as [? ?]
    | |- context [interp_get_image_dimensions ?a ?h] =>
        destruct (interp_get_image_dimensions a h) as [? ?]
    | |- context [interp_display_in_current_window ?a ?h] =>
        destruct (interp_display_in_current_window a h) as [? ?]
    end.

(** C3, as the code has it.  Whenever the interpreter's operation behind a
    store primitive fails, the primitive opens the error message box and
    pushes no true value: [load_image] and [allocate_image] push [nil] and
    the message, [save_image] and [display_in_current_window] push [false]
    alone, and [unload_image], [get_pixel] and [get_image_dimensions] push
    nothing. *)
Theorem failure_is_reported_and_never_truthy
    (p : Primitive) (args : list Value) (st : State H)
    (e : Event) (res : CallResult) :
  underlying_operation p args st = Some (e, res) ->
  success res = false ->
  fst (run p args st) = failure_values p (message res) /\
  truthy (hd Nil (fst (run p args st))) = false /\
  trace (snd (run p args st)) =
    trace st ++
    [e; Call_message_box
          (Some "Error executing Lua script."%string)
          (error_text (currentline st) (function_name p) (message res))
          true].
Proof.
  intros Hop Hfail.
  destruct p; revert Hop; unfold_primitive; cbn [host trace fst snd];
    repeat match goal with
      | |- context [if ?c then _ else _] =>
          lazymatch c with
          | context [success] => fail
          | _ => destruct c eqn:?
          end
      end;
    try discriminate;
    cbn [orb] in *; try discriminate;
    name_answers; cbn [fst snd host trace currentline current_image_global];
    intros [= <- <-]; rewrite Hfail;
    cbn [negb fst snd host trace currentline current_image_global
         failure_values function_name hd truthy];
    rewrite <- ?app_assoc; repeat split; reflexivity.
Qed.


(** After the first call the global [__current_image] holds the handle,
    and a call returns it without asking the interpreter. *)
Lemma get_displayed_image_cached (st : State H) (image : Z) :
  current_image_global st = Integer image ->
  get_displayed_image [] st = ([Integer image], st).
Proof.
  intro Hg. unfold get_displayed_image, getglobal_current_image, bind, ret.
  rewrite Hg. reflexivity.
Qed.

Lemma repeat_get_displayed_image_cached (n : nat) (st : State H) (image : Z) :
  current_image_global st = Integer image ->
  repeat_get_displayed_image n st = (repeat [Integer image] n, st).
Proof.
  intro Hg. induction n as [|n IH]; [reflexivity|].
  cbn [repeat_get_displayed_image repeat]. unfold bind at 1.
  rewrite (get_displayed_image_cached st image Hg).
  unfold bind at 1. rewrite IH. reflexivity.
Qed.

(** With the global unset a call asks the interpreter and stores the
    handle. *)
Lemma get_displayed_image_first (st : State H) :
  current_image_global st = Nil ->
  get_displayed_image [] st =
    ([Integer (fst (interp_get_caller_image (host st)))],
     mkState (snd (interp_get_caller_image (host st)))
             (Integer (fst (interp_get_caller_image (host st))))
             (currentline st)
             (trace st ++ [Call_get_caller_image])).
Proof.
  intro Hg.
  unfold get_displayed_image, getglobal_current_image,
    setglobal_current_image, call, emit, bind, ret.
  rewrite Hg. cbn [lua_isnil negb host trace currentline].
  destruct (interp_get_caller_image (host st)) as [i h']. reflexivity.
Qed.

(** Any number of calls in a row, from a fresh state. *)
Lemma consecutive_calls_resolve_once (h : H) (line : Z) (n : nat) :
  let image := fst (interp_get_caller_image h) in
  let out := repeat_get_displayed_image (S n) (initial_state h line) in
  fst out = repeat [Integer image] (S n) /\
  trace (snd out) = [Call_get_caller_image] /\
  host (snd out) = snd (interp_get_caller_image h) /\
  current_image_global (snd out) = Integer image.
Proof.
  intros image out.
  assert (Hout : out =
            (repeat [Integer image] (S n),
             mkState (snd (interp_get_caller_image h)) (Integer image) line
                     [Call_get_caller_image])).
  { unfold out. cbn [repeat_get_displayed_image]. unfold bind at 1.
    rewrite get_displayed_image_first by reflexivity.
    unfold bind at 1.
    rewrite (repeat_get_displayed_image_cached n _ image) by reflexivity.
    reflexivity. }
  rewrite Hout. repeat split; reflexivity.
Qed.

(** No store primitive touches [__current_image] or asks for the caller
    image. *)
Lemma run_keeps_cache (p : Primitive) (args : list Value) (st : State H) :
  current_image_global (snd (run p args st)) = current_image_global st /\
  resolutions (trace (snd (run p args st))) = resolutions (trace st).
Proof.
  destruct p; unfold_primitive; cbn [host trace fst snd];
    repeat match goal with
      | |- context [if ?c then _ else _] =>
          lazymatch c with
          | context [success] => fail
          | _ => destruct c eqn:?
          end
      end;
    name_answers;
    repeat match goal with
      | |- context [if ?c then _ else _] => destruct c eqn:?
      end;
    cbn [fst snd host trace currentline current_image_global];
    unfold resolutions; rewrite ?filter_app; cbn; rewrite ?app_nil_r;
    split; reflexivity.
Qed.

Lemma run_script_cached (steps : list ScriptStep) :
  forall (st : State H) (image : Z),
    current_image_global st = Integer image ->
    let out := run_script steps st in
    Forall (eq [Integer image]) (displayed_images steps (fst out)) /\
    resolutions (trace (snd out)) = resolutions (trace st) /\
    current_image_global (snd out) = Integer image.
Proof.
  induction steps as [|s steps IH]; intros st image Hg; cbn [run_script].
  - cbn. repeat split; [constructor | exact Hg].
  - destruct s as [p args|].
    + destruct (run_keeps_cache p args st) as [Hg' Hr'].
      destruct (run p args st) as [vs st1]. cbn [snd] in Hg', Hr'.
      rewrite Hg in Hg'.
      destruct (IH st1 image Hg') as (Hall & Hres & Hglob).
      destruct (run_script steps st1) as [vss st2]. cbn in *.
      repeat split; [exact Hall | congruence | exact Hglob].
    + rewrite (get_displayed_image_cached st image Hg).
      destruct (IH st image Hg) as (Hall & Hres & Hglob).
      destruct (run_script steps st) as [vss st2]. cbn in *.
      repeat split; [constructor; [reflexivity | exact Hall] | | ];
        assumption.
Qed.

Lemma run_script_fresh (steps : list ScriptStep) :
  forall st : State H,
    current_image_global st = Nil ->
    let out := run_script steps st in
    exists image : Z,
      Forall (eq [Integer image]) (displayed_images steps (fst out)) /\
      resolutions (trace (snd out)) =
        (resolutions (trace st) +
         if existsb is_displayed_image_call steps then 1 else 0)%nat.
Proof.
  induction steps as [|s steps IH]; intros st Hg; cbn [run_script].
  - cbn. exists 0. split; [constructor | lia].
  - destruct s as [p args|].
    + destruct (run_keeps_cache p args st) as [Hg' Hr'].
      destruct (run p args st) as [vs st1]. cbn [snd] in Hg', Hr'.
      rewrite Hg in Hg'.
      destruct (IH st1 Hg') as (image & Hall & Hres).
      destruct (run_script steps st1) as [vss st2]. cbn in *.
      exists image. split; [exact Hall | congruence].
    + rewrite (get_displayed_image_first st Hg).
      set (image := fst (interp_get_caller_image (host st))).
      match goal with |- context [run_script steps ?st1] =>
        destruct (run_script_cached steps st1 image eq_refl)
          as (Hall & Hres & _);
        destruct (run_script steps st1) as [vss st2]
      end.
      cbn in *. exists image.
      split; [constructor; [reflexivity | exact Hall]|].
      rewrite Hres. unfold resolutions. rewrite filter_app, length_app.
      reflexivity.
Qed.

(** C9.  In a run, which starts with [__current_image] unset, the first
    call of [get_displayed_image] asks the interpreter for the caller image
    and stores the handle, and every later call returns that handle
    without asking again: whatever store primitives the script calls in
    between, all the calls of [get_displayed_image] return the same handle
    and the interpreter is asked exactly once; for calls in a row the
    handle is the one the interpreter gave. *)
Theorem get_displayed_image_resolves_once
    (h : H) (line : Z) (steps : list ScriptStep) (n : nat) :
  (let out := run_script steps (initial_state h line) in
   exists image : Z,
     Forall (eq [Integer image]) (displayed_images steps (fst out)) /\
     resolutions (trace (snd out)) =
       if existsb is_displayed_image_call steps then 1%nat else 0%nat) /\
  (let image := fst (interp_get_caller_image h) in
   let out := repeat_get_displayed_image (S n) (initial_state h line) in
   fst out = repeat [Integer image] (S n) /\
   trace (snd out) = [Call_get_caller_image] /\
   host (snd out) = snd (interp_get_caller_image h) /\
   current_image_global (snd out) = Integer image).
Proof.
  split.
  - exact (run_script_fresh steps (initial_state h line) eq_refl).
  - apply consecutive_calls_resolve_once.
Qed.

End BridgeFacts.

(** C3, as the specification has it, fails: when the interpreter's
    [save_image] fails the script gets [false] alone, and when its
    [get_pixel] fails the script gets nothing; neither comes with an
    error-message string. *)
Lemma save_image_failure_pushes_no_message :
  let st := Bridge.initial_state tt 12 in
  let save :=
    Bridge.run (interpreter := Bridge.failing_host "no such image")
               (conv := Lua.plain_conversions)
               Bridge.P_save_image [Lua.Integer 1; Lua.Str "out.png"] st in
  let pixel :=
    Bridge.run (interpreter := Bridge.failing_host "no such image")
               (conv := Lua.plain_conversions)
               Bridge.P_get_pixel
               [Lua.Integer 1; Lua.Integer 0; Lua.Integer 0] st in
  fst save = [Lua.Boolean false] /\
  ~ Bridge.falsy_with_message (fst save) /\
  fst pixel = [] /\
  ~ Bridge.falsy_with_message (fst pixel).
Proof.
  cbv zeta. repeat split; try reflexivity;
    intros (v & msg & rest & Heq & _); vm_compute in Heq; discriminate Heq.
Qed.


(** ** Traversal *)

Section TraversalFacts.

Import Lua Traversal.

Context {conv : Conversions}.

Lemma replace_nth_other {A : Type} (i j : nat) (a d : A) (l : list A) :
  i <> j -> nth j (replace_nth i a l) d = nth j l d.
Proof.
  revert i j. induction l as [|b l IH]; intros i j Hij;
    [destruct i; reflexivity|].
  destruct i, j; cbn; try reflexivity; try congruence.
  apply IH. congruence.
Qed.

Lemma find_put_image (handle : Z) (old img : Image) (table : list (Z * Image)) :
  find_image handle table = Some old ->
  find_image handle (put_image handle img table) = Some img.
Proof.
  induction table as [|[k i] table IH]; cbn; [discriminate|].
  destruct (k =? handle) eqn:E; cbn; rewrite E; auto.
Qed.

Lemma set_current_pixel_calls (a : list Value) (w : World) :
  lua_calls (set_current_pixel a w) = lua_calls w.
Proof.
  unfold set_current_pixel.
  destruct (_ || _); [reflexivity|].
  destruct (store_set_current_pixel _ _); reflexivity.
Qed.

Lemma set_current_pixel_visiting (handle : Z) (img : Image) (x y : nat)
    (a : list Value) (w : World) :
  visiting handle img x y w -> visiting handle img x y (set_current_pixel a w).
Proof.
  intros (img' & Hfind & Htrav & Hwidth & Hcur & Hrest).
  unfold set_current_pixel.
  destruct (_ || _); [exists img'; cbn; auto|].
  unfold store_set_current_pixel. rewrite Htrav, Hfind. cbn [store].
  eexists. split; [cbn; eapply find_put_image; exact Hfind|].
  unfold write_at_cursor. rewrite Hcur. cbn.
  repeat split; try assumption.
  intros i Hi. rewrite replace_nth_other; [apply Hrest; exact Hi|].
  unfold offset in *. rewrite Hwidth. lia.
Qed.

Lemma callback_body_calls (l : list (list Value)) (w : World) :
  lua_calls (fold_left (fun w a => set_current_pixel a w) l w) = lua_calls w.
Proof.
  revert w. induction l as [|a l IH]; intro w; [reflexivity|].
  cbn. rewrite IH. apply set_current_pixel_calls.
Qed.

Lemma callback_body_visiting (handle : Z) (img : Image) (x y : nat)
    (l : list (list Value)) (w : World) :
  visiting handle img x y w ->
  visiting handle img x y (fold_left (fun w a => set_current_pixel a w) l w).
Proof.
  revert w. induction l as [|a l IH]; intros w Hw; [exact Hw|].
  cbn. apply IH. apply set_current_pixel_visiting. exact Hw.
Qed.

(** One visit calls the callback once, with the pixel of the image as it
    was when the traversal began, and leaves the later pixels alone. *)
Lemma visit_calls_once (handle : Z) (img : Image) (fn : LuaCallback)
    (x y : nat) (w : World) :
  unvisited_from handle img (offset img x y) w ->
  let w' := visit handle (traverse_image_callback fn) x y w in
  lua_calls w' = lua_calls w ++ [callback_arguments (pixel_at img x y) x y] /\
  unvisited_from handle img (S (offset img x y)) w'.
Proof.
  intros (img' & Hfind & Htrav & Hwidth & Hrest) w'.
  assert (Hpix : pixel_at (move_cursor img' x y) x y = pixel_at img x y).
  { unfold pixel_at, offset, move_cursor. cbn. rewrite Hwidth.
    apply Hrest. unfold offset. lia. }
  unfold w', visit. rewrite Hfind, Hpix.
  destruct (pixel_at img x y) as [[[r g] b] a] eqn:Ep.
  unfold traverse_image_callback, lua_call. cbn [store lua_calls errors].
  split.
  - rewrite callback_body_calls. reflexivity.
  - match goal with |- unvisited_from _ _ _ (fold_left _ ?l ?w0) =>
      assert (Hv : visiting handle img x y w0);
      [| apply (callback_body_visiting _ _ _ _ l) in Hv ]
    end.
    { exists (move_cursor img' x y). cbn.
      repeat split; try assumption;
        try (eapply find_put_image; exact Hfind).
      intros i Hi. apply Hrest. lia. }
    destruct Hv as (img'' & Hfind' & Htrav' & Hwidth' & _ & Hrest').
    exists img''. repeat split; assumption.
Qed.

(** A row of visits, from column [a] on. *)
Lemma row_calls (handle : Z) (img : Image) (fn : LuaCallback) (y n : nat) :
  forall (a : nat) (w : World),
    unvisited_from handle img (offset img a y) w ->
    let w' := fold_left
                (fun w x => visit handle (traverse_image_callback fn) x y w)
                (seq a n) w in
    lua_calls w' =
      lua_calls w ++
      map (fun x => callback_arguments (pixel_at img x y) x y) (seq a n) /\
    unvisited_from handle img (offset img (a + n) y) w'.
Proof.
  induction n as [|n IH]; intros a w Hw; cbn [seq fold_left map].
  - rewrite app_nil_r, Nat.add_0_r. split; [reflexivity | exact Hw].
  - destruct (visit_calls_once handle img fn a y w Hw) as [Hcalls Hnext].
    replace (S (offset img a y)) with (offset img (S a) y) in Hnext
      by (unfold offset; lia).
    destruct (IH (S a) _ Hnext) as [Hcalls' Hnext'].
    cbv zeta in Hcalls', Hnext'. rewrite Hcalls', Hcalls, <- app_assoc.
    split; [reflexivity|].
    replace (a + S n)%nat with (S a + n)%nat by lia. exact Hnext'.
Qed.

(** The rows, from row [b] on. *)
Lemma rows_calls (handle : Z) (img : Image) (fn : LuaCallback) (n : nat) :
  forall (b : nat) (w : World),
    unvisited_from handle img (offset img 0 b) w ->
    let w' := fold_left
                (fun w y =>
                   fold_left
                     (fun w x =>
                        visit handle (traverse_image_callback fn) x y w)
                     (seq 0 (width img)) w)
                (seq b n) w in
    lua_calls w' =
      lua_calls w ++
      flat_map
        (fun y => map (fun x => callback_arguments (pixel_at img x y) x y)
                      (seq 0 (width img)))
        (seq b n) /\
    unvisited_from handle img (offset img 0 (b + n)) w'.
Proof.
  induction n as [|n IH]; intros b w Hw; cbn [seq fold_left flat_map].
  - rewrite app_nil_r, Nat.add_0_r. split; [reflexivity | exact Hw].
  - destruct (row_calls handle img fn b (width img) 0 w Hw)
      as [Hcalls Hnext].
    cbv zeta in Hcalls, Hnext.
    replace (offset img (0 + width img) b) with (offset img 0 (S b)) in Hnext
      by (unfold offset; lia).
    destruct (IH (S b) _ Hnext) as [Hcalls' Hnext'].
    cbv zeta in Hcalls', Hnext'. rewrite Hcalls', Hcalls, <- app_assoc.
    split; [reflexivity|].
    replace (b + S n)%nat with (S b + n)%nat by lia. exact Hnext'.
Qed.

Lemma channel_8_bit (c : byte) : 0 <= channel c <= 255.
Proof.
  unfold channel. pose proof (Byte.to_N_bounded c). lia.
Qed.

Lemma row_major_calls_length (img : Image) :
  List.length (row_major_calls img) = (width img * height img)%nat.
Proof.
  unfold row_major_calls.
  generalize 0%nat at 2 as b. induction (height img) as [|n IH]; intro b.
  - cbn. lia.
  - cbn [seq flat_map]. rewrite length_app, length_map, length_seq, IH. lia.
Qed.

Lemma row_major_calls_well_formed (img : Image) :
  Forall (well_formed_call img) (row_major_calls img).
Proof.
  apply Forall_forall. intros call Hin.
  unfold row_major_calls in Hin.
  apply in_flat_map in Hin. destruct Hin as (y & Hy & Hin).
  apply in_map_iff in Hin. destruct Hin as (x & <- & Hx).
  apply in_seq in Hx, Hy.
  destruct (pixel_at img x y) as [[[r g] b] a].
  exists (channel r), (channel g), (channel b), (channel a),
    (Z.of_nat x), (Z.of_nat y).
  split; [reflexivity|].
  repeat split; try apply channel_8_bit; lia.
Qed.

(** The [k]-th call of a row-major traversal is for the pixel in column
    [k mod width] of row [k / width]. *)
Lemma row_major_calls_nth (img : Image) (k : nat) :
  (k < width img * height img)%nat ->
  nth k (row_major_calls img) [] =
    callback_arguments
      (pixel_at img (k mod width img) (k / width img))
      (k mod width img) (k / width img).
Proof.
  unfold row_major_calls.
  set (W := width img).
  set (f := fun y => map (fun x => callback_arguments (pixel_at img x y) x y)
                         (seq 0 W)).
  assert (Hlen : forall y, List.length (f y) = W).
  { intro y. unfold f. now rewrite length_map, length_seq. }
  assert (Hgen : forall n b j, (j < W * n)%nat ->
            nth j (flat_map f (seq b n)) [] =
            nth (j mod W) (f (b + j / W)%nat) []).
  { induction n as [|n IH]; intros b j Hj; [lia|].
    cbn [seq flat_map].
    destruct (Nat.lt_ge_cases j W) as [Hlt | Hge].
    - rewrite app_nth1 by (rewrite Hlen; exact Hlt).
      rewrite Nat.mod_small, Nat.div_small, Nat.add_0_r by exact Hlt.
      reflexivity.
    - rewrite app_nth2 by (rewrite Hlen; exact Hge).
      rewrite Hlen, IH by lia.
      assert (HW : W <> 0%nat) by lia.
      replace j with ((j - W) + 1 * W)%nat at 3 4 by lia.
      rewrite Nat.Div0.mod_add, Nat.div_add by exact HW.
      f_equal. f_equal. lia. }
  intro Hk. rewrite (Hgen (height img) 0%nat k Hk). cbn [Nat.add].
  unfold f.
  assert (Hm : (k mod W < W)%nat) by (apply Nat.mod_upper_bound; lia).
  rewrite (nth_indep _ []
             (callback_arguments (pixel_at img 0 (k / W)) 0 (k / W)))
    by (rewrite length_map, length_seq; exact Hm).
  rewrite (map_nth (fun x => callback_arguments (pixel_at img x (k / W))
                                                x (k / W))).
  rewrite seq_nth by exact Hm. reflexivity.
Qed.

(** C5.  For a handle of an image of the store, [traverse_image] calls the
    callback once per pixel, [width * height] times in all, row 0 first
    and from left to right within a row, with the arguments
    [(r, g, b, a, x, y)] in this order: the four 8-bit channels of the
    pixel and its 0-based column and row.  The [k]-th call is for the
    pixel at offset [k] of the row-major order, whatever the callback
    does to the pixels it is given. *)
Theorem traverse_image_calls_row_major
    (args : list Value) (fn : LuaCallback) (w : World)
    (handle : Z) (img : Image) :
  int_wrap (lua_tointeger (arg args 1)) = handle ->
  find_image handle (images (store w)) = Some img ->
  let out := traverse_image args fn w in
  fst out = [] /\
  lua_calls (snd out) = lua_calls w ++ row_major_calls img /\
  List.length (row_major_calls img) = (width img * height img)%nat /\
  Forall (well_formed_call img) (row_major_calls img) /\
  (forall k, (k < width img * height img)%nat ->
     nth k (row_major_calls img) [] =
       callback_arguments
         (pixel_at img (k mod width img) (k / width img))
         (k mod width img) (k / width img)).
Proof.
  intros Hhandle Hfind out.
  assert (Hout : fst out = [] /\
                 lua_calls (snd out) = lua_calls w ++ row_major_calls img).
  { unfold out, traverse_image, store_traverse. rewrite Hhandle, Hfind.
    cbn [fst snd lua_calls].
    match goal with |- context [fold_left _ _ ?w0] =>
      assert (Hw0 : unvisited_from handle img (offset img 0 0) w0)
    end.
    { exists img. cbn. repeat split; try assumption; reflexivity. }
    destruct (rows_calls handle img fn (height img) 0 _ Hw0) as [Hcalls _].
    cbv zeta in Hcalls. split; [reflexivity|]. exact Hcalls. }
  destruct Hout as [Hvalues Hcalls].
  split; [exact Hvalues|]. split; [exact Hcalls|].
  split; [apply row_major_calls_length|].
  split; [apply row_major_calls_well_formed|].
  intros k Hk. apply row_major_calls_nth. exact Hk.
Qed.

End TraversalFacts.

(** ** The shortcut list *)

Section FindAllFacts.

Import Shortcuts.

Context {A : Type} (deref : Z -> A) (f : A -> bool).


End FindAllFacts.

Section ShortcutFacts.

Import Shortcuts.

Lemma ltb_lt (a b : string) :
  String.ltb a b = true <-> OrderedTypeEx.String_as_OT.lt a b.
Proof.
  unfold String.ltb. rewrite <- OrderedTypeEx.String_as_OT.cmp_lt.
  unfold OrderedTypeEx.String_as_OT.cmp.
  destruct (String.compare a b); intuition discriminate.
Qed.



Lemma item_at_head (a : ShortcutTriple) (l : list ShortcutTriple) :
  item_at (a :: l) 0 = a.
Proof. reflexivity. Qed.







End ShortcutFacts.

(** * Further facts *)

(** ** The conversions between colour spaces *)

Section ColorFurtherFacts.

Import Color.
Local Open Scope Q_scope.

Lemma fmod_floor (x y : Q) :
  0 <= x -> 0 < y -> fmod x y == x - inject_Z (Qfloor (x / y)) * y.
Proof.
  intros Hx Hy. unfold fmod.
  rewrite Qtruncate_nonneg; [reflexivity|].
  apply Qle_shift_div_l; [exact Hy | lra].
Qed.

(** [euclidean_modulo x y] differs from [x] by a whole number of [y]s. *)
Lemma euclidean_modulo_congruent (x y : Q) :
  0 < y -> exists k : Z, euclidean_modulo x y == x + inject_Z k * y.
Proof.
  intro Hy. unfold euclidean_modulo.
  set (x1 := if Qlt_bool x 0 then y - fmod (- x) y else x).
  assert (H1 : exists k : Z, x1 == x + inject_Z k * y).
  { unfold x1. destruct (Qlt_bool x 0) eqn:E.
    - apply Qlt_bool_iff in E.
      exists (Qfloor (- x / y) + 1)%Z.
      rewrite (fmod_floor (- x) y) by lra.
      rewrite inject_Z_plus. inject_literals. ring.
    - exists 0%Z. inject_literals. ring. }
  assert (H0 : 0 <= x1).
  { unfold x1. destruct (Qlt_bool x 0) eqn:E.
    - apply Qlt_bool_iff in E.
      destruct (fmod_range (- x) y); [lra | exact Hy | lra].
    - apply Qlt_bool_false_iff in E. exact E. }
  destruct H1 as [k Hk]. clearbody x1.
  destruct (Qle_bool y x1).
  - exists (k - Qfloor (x1 / y))%Z.
    rewrite (fmod_floor x1 y H0 Hy).
    unfold Zminus. rewrite inject_Z_plus, inject_Z_opp.
    set (q := inject_Z (Qfloor (x1 / y))). clearbody q.
    set (c := inject_Z k) in *. clearbody c. lra.
  - exists k. exact Hk.
Qed.

(** Two values in [[0, y)] that differ by a whole number of [y]s are
    equal. *)
Lemma remainder_unique (a b y : Q) (k : Z) :
  0 < y -> 0 <= a -> a < y -> 0 <= b -> b < y ->
  a == b + inject_Z k * y -> a == b.
Proof.
  intros Hy Ha0 Ha1 Hb0 Hb1 Hab.
  assert (Hk : (k = 0)%Z).
  { destruct (Z_lt_le_dec k 0) as [Hneg | Hnn].
    - exfalso.
      assert (Hk1 : inject_Z k <= - (1)).
      { change (- (1)) with (inject_Z (-1)). rewrite <- Zle_Qle. lia. }
      assert (inject_Z k * y <= - (1) * y)
        by (apply Qmult_le_compat_r; [exact Hk1 | lra]).
      lra.
    - destruct (Z.eq_dec k 0) as [|Hne]; [assumption|exfalso].
      assert (Hk1 : 1 <= inject_Z k).
      { change 1 with (inject_Z 1). rewrite <- Zle_Qle. lia. }
      assert (1 * y <= inject_Z k * y)
        by (apply Qmult_le_compat_r; [exact Hk1 | lra]).
      lra. }
  subst k. rewrite Hab. inject_literals. ring.
Qed.

(** The remainder is the only value of [[0, y)] that differs from [x] by
    a whole number of [y]s. *)
Lemma euclidean_modulo_unique (x y r : Q) (j : Z) :
  0 < y ->
  0 <= r -> r < y -> r == x + inject_Z j * y ->
  r == euclidean_modulo x y.
Proof.
  intros Hy Hr0 Hr1 Hr.
  pose proof (euclidean_modulo_range x y Hy) as Hrange.
  destruct (euclidean_modulo_congruent x y Hy) as [k Hk].
  apply (remainder_unique r (euclidean_modulo x y) y (j - k) Hy);
    try tauto.
  rewrite Hk, Hr. unfold Zminus. rewrite inject_Z_plus, inject_Z_opp.
  ring.
Qed.

Lemma euclidean_modulo_periodic (x y : Q) (n : Z) :
  0 < y ->
  euclidean_modulo (x + inject_Z n * y) y == euclidean_modulo x y.
Proof.
  intro Hy.
  destruct (euclidean_modulo_range (x + inject_Z n * y) y Hy) as [H0 H1].
  destruct (euclidean_modulo_congruent (x + inject_Z n * y) y Hy) as [j Hj].
  apply (euclidean_modulo_unique _ _ _ (n + j)%Z Hy H0 H1).
  rewrite Hj, inject_Z_plus. ring.
Qed.


(** The channels pushed depend on the middle term of the table up to
    [==] only. *)
Lemma channels_of_row (c x x' m : Q) (j : Z) :
  x == x' ->
  match values c x j with
  | Some (v0, v1, v2) =>
      Ok (Qtruncate ((v0 + m) * 255), Qtruncate ((v1 + m) * 255),
          Qtruncate ((v2 + m) * 255))
  | None => Err assert_msg
  end =
  match values c x' j with
  | Some (v0, v1, v2) =>
      Ok (Qtruncate ((v0 + m) * 255), Qtruncate ((v1 + m) * 255),
          Qtruncate ((v2 + m) * 255))
  | None => Err assert_msg
  end.
Proof.
  intro Hx.
  destruct j as [|p|p]; [| |reflexivity];
    try (destruct p as [p|p|]); try (destruct p as [p|p|]);
    try (destruct p as [p|p|]);
    cbn [values]; try reflexivity;
    apply Ok_triple; apply Qtruncate_comp; rewrite ?Hx; reflexivity.
Qed.

(** Two hues with the same remainder modulo 360 give the same colour. *)
Lemma hsv_to_rgb_same_remainder (h1 h2 sat val : Q) :
  euclidean_modulo h1 360 == euclidean_modulo h2 360 ->
  hsv_to_rgb h1 sat val = hsv_to_rgb h2 sat val.
Proof.
  intro Hh. unfold hsv_to_rgb.
  set (a := euclidean_modulo h1 360) in *.
  set (b := euclidean_modulo h2 360) in *. clearbody a b.
  destruct (Qlt_bool sat 0 || Qlt_bool 1 sat); [reflexivity|].
  destruct (Qlt_bool val 0 || Qlt_bool 1 val); [reflexivity|].
  assert (Hj : Qtruncate (a / 60) = Qtruncate (b / 60))
    by (apply Qtruncate_comp; rewrite Hh; reflexivity).
  rewrite Hj. apply channels_of_row. rewrite Hh. reflexivity.
Qed.

(** X2. [hsv_to_rgb] has period 360 in the hue: adding any whole number of
    turns, forwards or backwards, changes none of the three channels and
    none of the errors. *)
Theorem hsv_to_rgb_hue_periodic (hue sat val : Q) (turns : Z) :
  hsv_to_rgb (hue + inject_Z turns * 360) sat val = hsv_to_rgb hue sat val.
Proof.
  apply hsv_to_rgb_same_remainder.
  apply (euclidean_modulo_periodic hue 360 turns). lra.
Qed.


Lemma out_of_byte_range_true (c : Q) :
  out_of_byte_range c = true <-> c < 0 \/ 255 < c.
Proof.
  unfold out_of_byte_range. rewrite orb_true_iff, !Qlt_bool_iff. tauto.
Qed.

(** X4. [rgb_to_hsv] fails, with the range message and nothing pushed, exactly
    when a channel is outside [[0, 255]]. *)
Theorem rgb_to_hsv_fails_iff_out_of_range (r g b : Q) :
  rgb_to_hsv r g b = Err rgb_range_msg <->
  (r < 0 \/ 255 < r) \/ (g < 0 \/ 255 < g) \/ (b < 0 \/ 255 < b).
Proof.
  rewrite <- !out_of_byte_range_true. unfold rgb_to_hsv.
  destruct (out_of_byte_range r); [tauto|].
  destruct (out_of_byte_range g); [tauto|].
  destruct (out_of_byte_range b); [tauto|].
  cbv zeta. split; [discriminate|]. intros [H | [H | H]]; discriminate.
Qed.

(** X5. For channels in [[0, 255]] the value pushed by [rgb_to_hsv] is the
    largest channel over 255 and the saturation is the spread of the
    channels over the largest one: both are ratios in [[0, 1]], so
    [hsv_to_rgb] takes them as they are. *)
Theorem rgb_to_hsv_saturation_and_value (r g b : Q) :
  0 <= r -> r <= 255 -> 0 <= g -> g <= 255 -> 0 <= b -> b <= 255 ->
  exists h s v : Q,
    rgb_to_hsv r g b = Ok (h, s, v) /\
    v * 255 == Qmax r (Qmax g b) /\
    s * Qmax r (Qmax g b) == Qmax r (Qmax g b) - Qmin r (Qmin g b) /\
    (0 <= s /\ s <= 1) /\ (0 <= v /\ v <= 1).
Proof.
  intros Hr0 Hr1 Hg0 Hg1 Hb0 Hb1.
  destruct (rgb_to_hsv_ok r g b Hr0 Hr1 Hg0 Hg1 Hb0 Hb1)
    as (h & s & Hcall & Hc & Hs0 & Hs1 & _).
  exists h, s, (Qmax (r / 255) (Qmax (g / 255) (b / 255))).
  split; [exact Hcall|].
  assert (Hr : r / 255 * 255 == r) by field.
  assert (Hg : g / 255 * 255 == g) by field.
  assert (Hb : b / 255 * 255 == b) by field.
  destruct (Qmax3_spec (r / 255) (g / 255) (b / 255)) as (A1 & A2 & A3 & A).
  destruct (Qmin3_spec (r / 255) (g / 255) (b / 255)) as (B1 & B2 & B3 & B).
  destruct (Qmax3_spec r g b) as (C1 & C2 & C3 & C).
  destruct (Qmin3_spec r g b) as (D1 & D2 & D3 & D).
  set (M' := Qmax (r / 255) (Qmax (g / 255) (b / 255))) in *.
  set (m' := Qmin (r / 255) (Qmin (g / 255) (b / 255))) in *.
  set (M := Qmax r (Qmax g b)) in *.
  set (m := Qmin r (Qmin g b)) in *.
  set (r' := r / 255) in *. set (g' := g / 255) in *.
  set (b' := b / 255) in *.
  clearbody M' m' M m r' g' b'.
  assert (HM : M' * 255 == M).
  { destruct A as [A | [A | A]]; destruct C as [C | [C | C]]; lra. }
  assert (Hm : m' * 255 == m).
  { destruct B as [B | [B | B]]; destruct D as [D | [D | D]]; lra. }
  split; [exact HM|].
  split; [|split; [split; assumption | split; lra]].
  rewrite <- HM, <- Hm.
  setoid_replace (s * (M' * 255)) with (M' * s * 255) by ring.
  rewrite Hc. ring.
Qed.

End ColorFurtherFacts.

(** ** The checks of the bridge *)

Lemma int_wrap_is_int (z : Z) : Bridge.is_int (int_wrap z).
Proof.
  unfold Bridge.is_int, int_wrap.
  pose proof (Z.mod_pos_bound (z + 2 ^ 31) (2 ^ 32)). lia.
Qed.

Lemma int_wrap_small (z : Z) : - 2 ^ 31 <= z < 2 ^ 31 -> int_wrap z = z.
Proof.
  intro Hz. unfold int_wrap. rewrite Z.mod_small; lia.
Qed.

Section BridgeFurtherFacts.

Import Lua Bridge.

Context {H : Type} {interpreter : LuaInterpreter H} {conv : Conversions}.

Ltac unfold_primitive :=
  unfold run, underlying_operation,
    load_image, allocate_image, unload_image, save_image, get_pixel,
    get_image_dimensions, display_in_current_window,
    handle_call_to_c_error, call, emit, bind, ret.

Ltac name_answers :=
  repeat match goal with
    | |- context [interp_load_image ?a ?h] =>
        destruct (interp_load_image a h) as [? ?]
    | |- context [interp_allocate_image ?a ?b ?h] =>
        destruct (interp_allocate_image a b h) as [? ?]
    | |- context [interp_unload_image ?a ?h] =>
        destruct (interp_unload_image a h) as [? ?]
    | |- context [interp_save_image ?a ?b ?c ?h] =>
        destruct (interp_save_image a b c h) as [? ?]
    | |- context [interp_get_pixel ?a ?b ?c ?h] =>
        destruct (interp_get_pixel a b c h) as [? ?]
    | |- context [interp_get_image_dimensions ?a ?h] =>
        destruct (interp_get_image_dimensions a h) as [? ?]
    | |- context [interp_display_in_current_window ?a ?h] =>
        destruct (interp_display_in_current_window a h) as [? ?]
    end.

Ltac split_argument_checks :=
  repeat match goal with
    | |- context [if ?c then _ else _] =>
        lazymatch c with
        | context [success] => fail
        | _ => destruct c eqn:?
        end
    end.

(** X6. Whatever the script passes, a store primitive calls the interpreter at
    most once and opens at most one message box, and what reaches the
    interpreter has passed the checks: every number is an [int],
    [allocate_image] asks for positive dimensions only and [get_pixel]
    for coordinates that are not negative. *)
Theorem interpreter_calls_are_guarded
    (p : Primitive) (args : list Value) (st : State H) :
  exists events : list Event,
    trace (snd (run p args st)) = trace st ++ events /\
    Forall guarded events /\
    (List.length (filter is_message_box events) <= 1)%nat /\
    (List.length (filter (fun e => negb (is_message_box e)) events) <= 1)%nat.
Proof.
  destruct p; unfold_primitive; cbn [host trace fst snd];
    split_argument_checks; name_answers;
    repeat match goal with
      | |- context [if ?c then _ else _] => destruct c eqn:?
      end;
    cbn [fst snd host trace currentline current_image_global];
    rewrite <- ?app_assoc; eexists; (split; [reflexivity|]);
    cbn [app filter is_message_box negb List.length];
    (split; [|split; lia]);
    repeat constructor; try apply int_wrap_is_int;
    repeat match goal with
      | Hc : (_ || _) = false |- _ =>
          apply orb_false_iff in Hc; destruct Hc
      end; lia.
Qed.

(** X7. When the interpreter's operation behind a store primitive succeeds,
    the primitive pushes the payload of the result in its fixed order (a
    handle, [true], the four channels, the two dimensions; nothing for
    [unload_image], as when it fails) and opens no message box. *)
Theorem success_pushes_the_payload
    (p : Primitive) (args : list Value) (st : State H)
    (e : Event) (res : CallResult) :
  underlying_operation p args st = Some (e, res) ->
  success res = true ->
  fst (run p args st) = success_values p res /\
  trace (snd (run p args st)) = trace st ++ [e].
Proof.
  intros Hop Hok.
  destruct p; revert Hop; unfold_primitive; cbn [host trace fst snd];
    split_argument_checks;
    try discriminate;
    cbn [orb] in *; try discriminate;
    name_answers; cbn [fst snd host trace currentline current_image_global];
    intros [= <- <-]; rewrite Hok;
    cbn [negb fst snd host trace currentline current_image_global
         success_values];
    split; reflexivity.
Qed.

Lemma tolower_facts (c : Ascii.ascii) :
  is_upper (tolower c) = false /\
  (is_upper c = false -> tolower c = c).
Proof.
  destruct c as [[] [] [] [] [] [] [] []]; vm_compute; split;
    (reflexivity || discriminate).
Qed.

Lemma to_lower_lower_case (s : string) : lower_case (to_lower s).
Proof.
  unfold lower_case. induction s as [|c s IH]; cbn; constructor.
  - apply tolower_facts.
  - exact IH.
Qed.

Lemma to_lower_fixes_lower_case (s : string) :
  lower_case s -> to_lower s = s.
Proof.
  unfold lower_case. induction s as [|c s IH]; cbn; intro Hs; [reflexivity|].
  inversion Hs as [|? ? Hc Hrest]; subst.
  rewrite (proj2 (tolower_facts c) Hc), (IH Hrest). reflexivity.
Qed.

(** X8. [to_lower] keeps the length of a string, leaves no upper-case letter
    of ASCII, changes nothing in a string that has none, and so changes
    nothing when applied again. *)
Theorem to_lower_normalises (s : string) :
  String.length (to_lower s) = String.length s /\
  lower_case (to_lower s) /\
  (lower_case s -> to_lower s = s) /\
  to_lower (to_lower s) = to_lower s.
Proof.
  split; [|split; [|split]].
  - induction s as [|c s IH]; cbn; congruence.
  - apply to_lower_lower_case.
  - apply to_lower_fixes_lower_case.
  - apply to_lower_fixes_lower_case, to_lower_lower_case.
Qed.

(** X9. The format name that [save_image] hands to the interpreter never has
    an upper-case letter, whatever the script wrote, as long as the format
    of a default-constructed [SaveOptions] has none. *)
Theorem save_image_format_is_lower_case (args : list Value) :
  lower_case (format default_options) ->
  lower_case (format (save_image_options args)).
Proof.
  intro Hdefault. unfold save_image_options.
  destruct ((3 <=? List.length args)%nat && lua_istable (arg args 3));
    [|exact Hdefault].
  destruct (lua_isstring (lua_gettable (arg args 3) "format"));
    destruct (lua_isnumber (lua_gettable (arg args 3) "compression"));
    cbn [format compression];
    (apply to_lower_lower_case || exact Hdefault).
Qed.

(** The argument checks of the Lua-level [zig_zag_order]. *)
Lemma zig_zag_order_argument_checks
    (args : list Value) (st : State H) :
  host (snd (zig_zag_order args st)) = host st /\
  ((List.length args < 5)%nat \/ all_numbers args = false ->
   fst (zig_zag_order args st) = [] /\
   exists text : string,
     trace (snd (zig_zag_order args st)) =
       trace st ++
       [Call_message_box (Some "Error executing Lua script."%string)
                         text true]) /\
  ((5 <= List.length args)%nat -> all_numbers args = true ->
   snd (zig_zag_order args st) = st /\
   exists x y s : Z,
     fst (zig_zag_order args st) = [Integer x; Integer y; Integer s]).
Proof.
  unfold zig_zag_order, handle_call_to_c_error, emit, bind, ret.
  destruct (List.length args <? 5)%nat eqn:Elen.
  - apply Nat.ltb_lt in Elen. cbn.
    split; [reflexivity|]. split; [|intros; lia].
    intros _. split; [reflexivity|]. eexists. reflexivity.
  - apply Nat.ltb_ge in Elen.
    destruct (all_numbers args) eqn:Enum; cbn [negb].
    + match goal with |- context [ZigZag.zig_zag_order ?w ?h ?x ?y ?s] =>
        destruct (zig_zag_order_total w h x y s) as (x' & y' & s' & ->)
      end.
      cbn. split; [reflexivity|].
      split; [intros [Hlt | Hno]; [lia | discriminate]|].
      intros _ _. split; [reflexivity|]. do 3 eexists. reflexivity.
    + cbn. split; [reflexivity|]. split; [|intros _ Habs; discriminate].
      intros _. split; [reflexivity|]. eexists. reflexivity.
Qed.

(** A two's complement word of [n + 1] bits has the same bit from the
    place [n] on. *)
Lemma sign_of_word (n a : Z) :
  0 <= n ->
  (- 2 ^ n <= a < 2 ^ n <-> Z.shiftr a n = 0 \/ Z.shiftr a n = -1).
Proof.
  intro Hn. rewrite Z.shiftr_div_pow2 by lia.
  assert (Hm : 0 < 2 ^ n) by (apply Z.pow_pos_nonneg; lia).
  set (m := 2 ^ n) in *. clearbody m.
  split; intros Ha; Z.div_mod_to_equations; nia.
Qed.

Lemma bit_operations_in_range (n a b : Z) :
  0 <= n ->
  - 2 ^ n <= a < 2 ^ n -> - 2 ^ n <= b < 2 ^ n ->
  - 2 ^ n <= Z.land a b < 2 ^ n /\
  - 2 ^ n <= Z.lor a b < 2 ^ n /\
  - 2 ^ n <= Z.lxor a b < 2 ^ n /\
  - 2 ^ n <= Z.lnot a < 2 ^ n.
Proof.
  intros Hn Ha Hb.
  pose proof (proj1 (sign_of_word n a Hn) Ha) as Sa.
  pose proof (proj1 (sign_of_word n b Hn) Hb) as Sb.
  split; [|split; [|split]].
  4: unfold Z.lnot; lia.
  all: apply (sign_of_word n _ Hn);
    rewrite ?Z.shiftr_land, ?Z.shiftr_lor, ?Z.shiftr_lxor;
    destruct Sa as [-> | ->], Sb as [-> | ->]; cbn; auto.
Qed.

(** X10. The bitwise primitives, for a [lua_tointeger] that reads an integer as
    it is.  Whatever the width of [lua_Integer], operands that fit in it
    give results that fit in it, so that nothing is lost by computing on
    unbounded integers; and the primitives compose as bit operations do:
    [bitwise_not] undoes itself, [bitwise_xor] with the same operand
    twice gives the first operand back, and the negation of an [and] is
    the [or] of the negations. *)
Theorem bitwise_primitives_compose (a b n : Z) :
  (forall z : Z, lua_tointeger (Integer z) = z) ->
  (0 <= n -> - 2 ^ n <= a < 2 ^ n -> - 2 ^ n <= b < 2 ^ n ->
   forall results : list Value,
     In results [bitwise_and [Integer a; Integer b];
                 bitwise_or [Integer a; Integer b];
                 bitwise_xor [Integer a; Integer b];
                 bitwise_not [Integer a]] ->
     exists z : Z, results = [Integer z] /\ - 2 ^ n <= z < 2 ^ n) /\
  bitwise_not (bitwise_not [Integer a]) = [Integer a] /\
  bitwise_xor (bitwise_xor [Integer a; Integer b] ++ [Integer b])
    = [Integer a] /\
  bitwise_not (bitwise_and [Integer a; Integer b])
    = bitwise_or (bitwise_not [Integer a] ++ bitwise_not [Integer b]) /\
  bitwise_and [Integer a; Integer a] = [Integer a] /\
  bitwise_xor [Integer a; Integer a] = [Integer 0].
Proof.
  intro Hint.
  unfold bitwise_not, bitwise_xor, bitwise_and, bitwise_or, arg.
  cbn [nth Nat.sub app]. rewrite !Hint.
  split.
  { intros Hn Ha Hb results Hin.
    destruct (bit_operations_in_range n a b Hn Ha Hb)
      as (Hand & Hor & Hxor & Hnot).
    cbn [In] in Hin.
    destruct Hin as [<- | [<- | [<- | [<- | []]]]];
      eexists; (split; [reflexivity | assumption]). }
  repeat split; f_equal; f_equal.
  - apply Z.lnot_involutive.
  - rewrite Z.lxor_assoc, Z.lxor_nilpotent, Z.lxor_0_r. reflexivity.
  - apply Z.bits_inj'. intros i Hi.
    rewrite Z.lnot_spec, Z.land_spec, Z.lor_spec, !Z.lnot_spec by lia.
    destruct (Z.testbit a i), (Z.testbit b i); reflexivity.
  - apply Z.land_diag.
  - apply Z.lxor_nilpotent.
Qed.

End BridgeFurtherFacts.

(** ** Writing the current pixel *)

Section SetCurrentPixelFacts.

Import Lua Traversal.

Context {conv : Conversions}.

(** X11. [set_current_pixel] writes nothing when one of its four channels is
    outside [[0, 255]]: the store is left as it was and the range error is
    reported; when the four are in range no error is reported.  It never
    calls a Lua function. *)
Theorem set_current_pixel_checks_channels (args : list Value) (w : World) :
  let c (i : nat) := int_wrap (lua_tointeger (arg args i)) in
  ((exists i : nat, (1 <= i <= 4)%nat /\ (c i < 0 \/ 255 < c i)) ->
   store (set_current_pixel args w) = store w /\
   errors (set_current_pixel args w) =
     errors w ++ ["All parameters should be in the range [0; 255]."%string]) /\
  ((forall i : nat, (1 <= i <= 4)%nat -> 0 <= c i <= 255) ->
   errors (set_current_pixel args w) = errors w) /\
  lua_calls (set_current_pixel args w) = lua_calls w.
Proof.
  intro c. split; [|split].
  - intros (i & Hi & Hbad). unfold set_current_pixel. cbv zeta beta.
    match goal with |- context [if ?t then _ else _] => destruct t eqn:E end;
      [split; reflexivity|].
    exfalso. rewrite !orb_false_iff, !Z.ltb_ge in E.
    assert (Hcases : i = 1%nat \/ i = 2%nat \/ i = 3%nat \/ i = 4%nat)
      by lia.
    subst c. cbv beta in Hbad.
    destruct Hcases as [-> | [-> | [-> | ->]]]; lia.
  - intro Hok. unfold set_current_pixel. cbv zeta beta.
    match goal with |- context [if ?t then _ else _] => destruct t eqn:E end.
    + exfalso. rewrite !orb_true_iff, !Z.ltb_lt in E.
      pose proof (Hok 1%nat ltac:(lia)). pose proof (Hok 2%nat ltac:(lia)).
      pose proof (Hok 3%nat ltac:(lia)). pose proof (Hok 4%nat ltac:(lia)).
      subst c. cbv beta in *. lia.
    + destruct (store_set_current_pixel _ (store w)); reflexivity.
  - apply set_current_pixel_calls.
Qed.

End SetCurrentPixelFacts.

(** ** The zig-zag scan order on any grid *)

Lemma prod_eq_dec_Z (p q : Z * Z) : {p = q} + {p <> q}.
Proof. decide equality; apply Z.eq_dec. Qed.

Section ZigZagFurtherFacts.

Import ZigZag.

Variables w h : Z.
Hypothesis w_is_int : 1 <= w < 2 ^ 31.
Hypothesis h_is_int : 1 <= h < 2 ^ 31.

Lemma last_column : int_wrap (w - 1) = w - 1.
Proof. apply int_wrap_small. lia. Qed.

Lemma last_row : int_wrap (h - 1) = h - 1.
Proof. apply int_wrap_small. lia. Qed.

(** Runs the loop of [zig_zag_order] to its end, splitting on the tests it
    makes and dropping the branches that the hypotheses exclude. *)
Ltac decide_test :=
  match goal with
  | |- context [if ?c then _ else _] =>
      let E := fresh "E" in
      destruct c eqn:E;
      [apply Z.eqb_eq in E | apply Z.eqb_neq in E];
      try (exfalso; lia)
  end.

Ltac run_loop :=
  repeat first
    [ rewrite loop_stop
    | rewrite loop_run; unfold switch, again;
      cbn [lx ly ls lrepeat Z.eqb Pos.eqb
           Initial RightwardsOnTop DownLeft DownwardsOnLeft UpRight
           DownwardsOnRight RightwardsOnBottom End];
      change (inc 0) with 1;
      unfold allright, atbottom, allleft, attop;
      cbn [lx ly ls lrepeat]; rewrite ?last_column, ?last_row;
      repeat decide_test ].

(** Away from the last cell the first test of [zig_zag_order] fails. *)
Lemma not_at_the_end (x y s : Z) :
  (x, y) <> (w - 1, h - 1) ->
  zig_zag_order w h x y s =
    match loop w h loop_fuel (mkLocals x y s 1) with
    | Some l => Some (lx l, ly l, ls l)
    | None => None
    end.
Proof.
  intro Hne. unfold zig_zag_order, atbottom, allright. cbn [lx ly].
  rewrite last_column, last_row.
  destruct (y =? h - 1) eqn:Ey; [|reflexivity].
  destruct (x =? w - 1) eqn:Ex; [|reflexivity].
  apply Z.eqb_eq in Ex, Ey. congruence.
Qed.

(** One call from a cell that is not the last one, in a state the
    generator returned: the next cell of the zig-zag order. *)
Lemma zig_zag_order_next (x y s : Z) :
  in_grid w h (x, y) -> consistent x y s -> (x, y) <> (w - 1, h - 1) ->
  exists x' y' s',
    zig_zag_order w h x y s = Some (x', y', s') /\
    in_grid w h (x', y') /\ consistent x' y' s' /\
    before (x, y) (x', y') /\
    (forall q, in_grid w h q ->
       ~ (before (x, y) q /\ before q (x', y'))).
Proof.
  intros [Hx Hy] Hs Hne. cbn [fst snd] in Hx, Hy.
  rewrite (not_at_the_end x y s Hne). unfold loop_fuel.
  assert (Hcorner : x <> w - 1 \/ y <> h - 1).
  { destruct (Z.eq_dec x (w - 1)), (Z.eq_dec y (h - 1)); try tauto.
    exfalso. apply Hne. congruence. }
  clear Hne.
  destruct Hs as [(-> & -> & ->) | [(-> & Hodd) | (-> & Heven)]];
    run_loop;
    do 3 eexists; (split; [reflexivity|]);
    unfold inc, dec; rewrite ?int_wrap_small by lia;
    unfold in_grid, consistent, before,
      RightwardsOnTop, DownLeft, UpRight; cbn [fst snd lx ly ls];
    (split; [lia|]);
    (split; [Z.div_mod_to_equations; lia|]);
    (split; [Z.div_mod_to_equations; lia|]);
    intros [qx qy] [Hqx Hqy]; cbn [fst snd] in *;
    Z.div_mod_to_equations; lia.
Qed.

Lemma before_irreflexive (p : Z * Z) : ~ before p p.
Proof. unfold before. lia. Qed.

Lemma before_transitive (p q r : Z * Z) :
  before p q -> before q r -> before p r.
Proof.
  destruct p, q, r. unfold before. cbn [fst snd].
  intros. Z.div_mod_to_equations. lia.
Qed.

Lemma before_total (p q : Z * Z) : p = q \/ before p q \/ before q p.
Proof.
  destruct p as [px py], q as [qx qy]. unfold before. cbn [fst snd].
  destruct (Z.eq_dec px qx) as [-> | Hx];
    [destruct (Z.eq_dec py qy) as [-> | Hy]; [left; reflexivity|]|];
    right; Z.div_mod_to_equations; lia.
Qed.

Lemma calls_left_positive (p : Z * Z) :
  in_grid w h p -> 0 < calls_left w h p.
Proof.
  destruct p as [x y]. unfold in_grid, calls_left. cbn [fst snd].
  intros [Hx Hy].
  assert (2 * (w + 1) <= (w + h - (x + y)) * (w + 1))
    by (apply Z.mul_le_mono_nonneg_r; lia).
  destruct ((x + y) mod 2 =? 0); lia.
Qed.

Lemma calls_left_decreases (p q : Z * Z) :
  in_grid w h p -> in_grid w h q -> before p q ->
  calls_left w h q < calls_left w h p.
Proof.
  destruct p as [x y], q as [x' y']. unfold in_grid, calls_left, before.
  cbn [fst snd]. intros [Hx Hy] [Hx' Hy'] [Hlt | (Heq & Hside)].
  - assert ((w + h - (x' + y')) * (w + 1)
            <= (w + h - (x + y) - 1) * (w + 1))
      by (apply Z.mul_le_mono_nonneg_r; lia).
    replace ((w + h - (x + y) - 1) * (w + 1))
      with ((w + h - (x + y)) * (w + 1) - (w + 1)) in * by ring.
    destruct ((x + y) mod 2 =? 0), ((x' + y') mod 2 =? 0); lia.
  - rewrite <- Heq.
    destruct ((x + y) mod 2 =? 0) eqn:E;
      [apply Z.eqb_eq in E | apply Z.eqb_neq in E]; lia.
Qed.

(** At the last cell every call returns [End], whatever state it is
    given. *)
Lemma zig_zag_order_at_last_cell (s : Z) :
  zig_zag_order w h (w - 1) (h - 1) s = Some (w - 1, h - 1, End).
Proof.
  unfold zig_zag_order, atbottom, allright. cbn [lx ly].
  rewrite last_column, last_row, !Z.eqb_refl. reflexivity.
Qed.

(** Driving the generator from a cell and a state it returned goes
    through all the later cells of the grid, in order. *)
Lemma drive_from (n : nat) :
  forall x y s : Z,
    in_grid w h (x, y) -> consistent x y s ->
    calls_left w h (x, y) < Z.of_nat n ->
    exists visited : list (Z * Z),
      drive n w h x y s = Some visited /\
      Forall (in_grid w h) visited /\
      Forall (before (x, y)) visited /\
      StronglySorted before visited /\
      (forall q, in_grid w h q -> before (x, y) q -> In q visited).
Proof.
  induction n as [|n IH]; intros x y s Hin Hs Hfuel.
  - pose proof (calls_left_positive (x, y) Hin). lia.
  - cbn [drive].
    destruct (prod_eq_dec_Z (x, y) (w - 1, h - 1)) as [Hlast | Hnot].
    + injection Hlast as -> ->. rewrite zig_zag_order_at_last_cell.
      cbn. exists []. repeat split; try constructor.
      intros [qx qy] [Hqx Hqy] Hq. exfalso.
      unfold before in Hq. cbn [fst snd] in *. lia.
    + destruct (zig_zag_order_next x y s Hin Hs Hnot)
        as (x' & y' & s' & -> & Hin' & Hs' & Hnext & Hgap).
      assert (Hend : (s' =? End) = false).
      { apply Z.eqb_neq. unfold consistent, RightwardsOnTop, DownLeft,
          UpRight, End in *. lia. }
      rewrite Hend.
      pose proof (calls_left_decreases (x, y) (x', y') Hin Hin' Hnext).
      destruct (IH x' y' s' Hin' Hs' ltac:(lia))
        as (rest & -> & Hgrid & Hafter & Hsorted & Hall).
      exists ((x', y') :: rest).
      split; [reflexivity|]. split; [constructor; assumption|].
      split; [|split].
      * constructor; [exact Hnext|].
        eapply Forall_impl; [|exact Hafter].
        intros q Hq. exact (before_transitive _ _ _ Hnext Hq).
      * constructor; assumption.
      * intros q Hq Hbefore.
        destruct (before_total q (x', y')) as [-> | [Hlt | Hgt]].
        -- left. reflexivity.
        -- exfalso. exact (Hgap q Hq (conj Hbefore Hlt)).
        -- right. exact (Hall q Hq Hgt).
Qed.

Lemma sorted_before_NoDup (l : list (Z * Z)) :
  StronglySorted before l -> NoDup l.
Proof.
  induction 1 as [|p l _ IH Hall]; constructor; [|exact IH].
  intro Hin. rewrite Forall_forall in Hall.
  exact (before_irreflexive p (Hall p Hin)).
Qed.

(** X12. On every grid whose dimensions are positive [int]s, driving
    [zig_zag_order] from [Initial] until it returns [End] ends, and
    returns every cell of the grid once and only once, in the zig-zag
    order of the diagonals, starting with the origin.  The position given
    with [Initial] is ignored unless it is the last cell. *)
Theorem zig_zag_order_visits_every_cell_once (x0 y0 : Z) :
  (x0, y0) <> (w - 1, h - 1) ->
  exists (fuel : nat) (visited : list (Z * Z)),
    drive fuel w h x0 y0 Initial = Some visited /\
    hd_error visited = Some (0, 0) /\
    NoDup visited /\
    (forall q, In q visited <-> in_grid w h q) /\
    StronglySorted before visited.
Proof.
  intro Hstart.
  set (n := S (Z.to_nat (calls_left w h (0, 0)))).
  assert (Horigin : in_grid w h (0, 0)) by (unfold in_grid; cbn; lia).
  assert (Hs : consistent 0 0 RightwardsOnTop) by (left; auto).
  assert (Hn : calls_left w h (0, 0) < Z.of_nat n) by (subst n; lia).
  clearbody n.
  destruct (drive_from n 0 0 RightwardsOnTop Horigin Hs Hn)
    as (rest & Hdrive & Hgrid & Hafter & Hsorted & Hall).
  exists (S n), ((0, 0) :: rest).
  assert (Hfirst : zig_zag_order w h x0 y0 Initial
                   = Some (0, 0, RightwardsOnTop)).
  { rewrite (not_at_the_end x0 y0 Initial Hstart). unfold loop_fuel.
    run_loop. reflexivity. }
  split.
  { cbn [drive]. rewrite Hfirst.
    change (RightwardsOnTop =? End) with false. cbv iota.
    rewrite Hdrive. reflexivity. }
  split; [reflexivity|].
  assert (Hsorted' : StronglySorted before ((0, 0) :: rest))
    by (constructor; assumption).
  split; [apply sorted_before_NoDup; exact Hsorted'|].
  split; [|exact Hsorted'].
  intro q. split.
  - intros [<- | Hin]; [exact Horigin|].
    rewrite Forall_forall in Hgrid. exact (Hgrid q Hin).
  - intro Hq. destruct (before_total (0, 0) q) as [<- | [Hlt | Hgt]].
    + left. reflexivity.
    + right. exact (Hall q Hq Hlt).
    + exfalso. destruct q as [qx qy]. destruct Hq as [Hqx Hqy].
      unfold before in Hgt. cbn [fst snd] in *.
      Z.div_mod_to_equations. lia.
Qed.

Lemma step_in_grid (x y s : Z) :
  in_grid w h (x, y) ->
  exists x' y' s',
    zig_zag_order w h x y s = Some (x', y', s') /\ in_grid w h (x', y').
Proof.
  intros [Hx Hy]. cbn [fst snd] in Hx, Hy.
  destruct (prod_eq_dec_Z (x, y) (w - 1, h - 1)) as [Hlast | Hnot].
  - injection Hlast as -> ->. rewrite zig_zag_order_at_last_cell.
    do 3 eexists. split; [reflexivity|]. unfold in_grid. cbn. lia.
  - rewrite (not_at_the_end x y s Hnot). unfold loop_fuel.
    assert (Hcorner : x <> w - 1 \/ y <> h - 1).
    { destruct (Z.eq_dec x (w - 1)), (Z.eq_dec y (h - 1)); try tauto.
      exfalso. apply Hnot. congruence. }
    clear Hnot.
    run_loop; do 3 eexists; (split; [reflexivity|]);
      unfold inc, dec; rewrite ?int_wrap_small by lia;
      unfold in_grid; cbn [fst snd lx ly ls]; lia.
Qed.

(** X13. On a grid whose dimensions are positive [int]s, given a cell of
    the grid, with any state at all, named or not and whether or not it
    fits the cell, [zig_zag_order] returns a cell of the grid; and given a
    cell other than the last one with a state that the generator returns
    there, it returns the next cell of the zig-zag order, no cell of the
    grid lying between the two, with a state that the generator returns
    there. *)
Theorem zig_zag_order_stays_in_the_grid (x y s : Z) :
  in_grid w h (x, y) ->
  exists x' y' s',
    zig_zag_order w h x y s = Some (x', y', s') /\
    in_grid w h (x', y') /\
    (consistent x y s -> (x, y) <> (w - 1, h - 1) ->
     consistent x' y' s' /\
     before (x, y) (x', y') /\
     forall q, in_grid w h q ->
       ~ (before (x, y) q /\ before q (x', y'))).
Proof.
  intro Hcell.
  destruct (step_in_grid x y s Hcell) as (x' & y' & s' & Hstep & Hin).
  exists x', y', s'. split; [exact Hstep|]. split; [exact Hin|].
  intros Hs Hne.
  destruct (zig_zag_order_next x y s Hcell Hs Hne)
    as (x2 & y2 & s2 & Hstep2 & _ & Hs2 & Hlt & Hnone).
  rewrite Hstep in Hstep2. injection Hstep2 as <- <- <-.
  split; [exact Hs2|]. split; [exact Hlt|]. exact Hnone.
Qed.

(** X14. On a grid whose dimensions are positive [int]s: at the last cell
    every call returns [End] and the same cell, whatever state it is
    given, [Initial] included, so that on a grid of one cell the drive
    from [Initial] at the origin returns no cell at all; and away from the
    last cell a state that is none of the eight named ones comes back
    unchanged with the position, so that a drive from it never sees
    [End], however many calls it makes. *)
Theorem zig_zag_order_at_the_last_cell_and_off_the_states (x y s : Z) :
  zig_zag_order w h (w - 1) (h - 1) s = Some (w - 1, h - 1, End) /\
  (w = 1 -> h = 1 -> forall n, drive (S n) w h 0 0 Initial = Some []) /\
  ((x, y) <> (w - 1, h - 1) -> s < -1 \/ 6 < s ->
   zig_zag_order w h x y s = Some (x, y, s) /\
   forall n, drive n w h x y s = None).
Proof.
  split; [apply zig_zag_order_at_last_cell|]. split.
  - intros Hw Hh n. cbn [drive].
    replace 0 with (w - 1) at 1 by lia. replace 0 with (h - 1) at 1 by lia.
    rewrite zig_zag_order_at_last_cell. reflexivity.
  - intros Hnot Hs.
    assert (Hsame : zig_zag_order w h x y s = Some (x, y, s)).
    { rewrite (not_at_the_end x y s Hnot). unfold loop_fuel.
      rewrite loop_run. unfold switch. cbn [lx ly ls lrepeat].
      unfold Initial, RightwardsOnTop, DownLeft, DownwardsOnLeft, UpRight,
        DownwardsOnRight, RightwardsOnBottom, End.
      repeat match goal with
        | |- context [s =? ?k] =>
            let E := fresh "E" in
            destruct (s =? k) eqn:E; [apply Z.eqb_eq in E; lia|]
        end.
      rewrite loop_stop. reflexivity. }
    split; [exact Hsame|].
    induction n as [|n IH]; [reflexivity|].
    cbn [drive]. rewrite Hsame, IH.
    destruct (s =? End) eqn:E; [|reflexivity].
    apply Z.eqb_eq in E. unfold End in E. lia.
Qed.

End ZigZagFurtherFacts.

Section ZigZagFromLua.

Import Lua Bridge.

Context {H : Type} {conv : Conversions}.

(** X15. The Lua-level [zig_zag_order] never touches the host; with fewer than
    five arguments, or with one of the first five that is not a number,
    it opens the error message box and pushes nothing; otherwise it
    pushes exactly three integers and opens no message box, and when the
    width and the height read are positive and the position read is a
    cell of that grid, the position pushed is a cell of it too. *)
Theorem zig_zag_order_checks_its_arguments
    (args : list Value) (st : State H) :
  host (snd (zig_zag_order args st)) = host st /\
  ((List.length args < 5)%nat \/ all_numbers args = false ->
   fst (zig_zag_order args st) = [] /\
   exists text : string,
     trace (snd (zig_zag_order args st)) =
       trace st ++
       [Call_message_box (Some "Error executing Lua script."%string)
                         text true]) /\
  ((5 <= List.length args)%nat -> all_numbers args = true ->
   snd (zig_zag_order args st) = st /\
   exists x y s : Z,
     fst (zig_zag_order args st) = [Integer x; Integer y; Integer s] /\
     let param (i : nat) := int_wrap (lua_tointeger (arg args i)) in
     (1 <= param 3%nat -> 1 <= param 4%nat ->
      ZigZag.in_grid (param 3%nat) (param 4%nat)
                     (param 1%nat, param 2%nat) ->
      ZigZag.in_grid (param 3%nat) (param 4%nat) (x, y))).
Proof.
  destruct (zig_zag_order_argument_checks args st) as (Hhost & Hbad & Hgood).
  split; [exact Hhost|]. split; [exact Hbad|].
  intros Hlen Hnum. destruct (Hgood Hlen Hnum) as (Hst & x & y & s & Hout).
  split; [exact Hst|]. exists x, y, s. split; [exact Hout|].
  cbv zeta. intros Hw Hh Hcell.
  pose proof (int_wrap_is_int (lua_tointeger (arg args 3))) as Hwi.
  pose proof (int_wrap_is_int (lua_tointeger (arg args 4))) as Hhi.
  unfold is_int in Hwi, Hhi.
  destruct (step_in_grid (int_wrap (lua_tointeger (arg args 3)))
              (int_wrap (lua_tointeger (arg args 4)))
              (conj Hw (proj2 Hwi)) (conj Hh (proj2 Hhi)) _ _
              (int_wrap (lua_tointeger (arg args 5))) Hcell)
    as (x' & y' & s' & Hstep & Hin).
  unfold zig_zag_order in Hout.
  apply Nat.ltb_ge in Hlen. rewrite Hlen, Hnum in Hout. cbn [negb] in Hout.
  rewrite Hstep in Hout. cbn in Hout. injection Hout as <- <- <-.
  exact Hin.
Qed.

End ZigZagFromLua.

(** ** The list of shortcuts: [find_all], [add_new_item], [remove_index] *)

Section FindAllFurtherFacts.

Import Shortcuts.

Context {A : Type} (deref : Z -> A) (f : A -> bool).

(** The loop ends inside the range it was given, at a place where [f]
    goes from false to true, whatever [f] does elsewhere. *)
Lemma find_all_loop_local (first n : Z) :
  0 <= n ->
  let r := find_all_loop deref f first n in
  first <= r <= first + n /\
  (r = first \/ f (deref (r - 1)) = false) /\
  (r = first + n \/ f (deref r) = true).
Proof.
  funelim (find_all_loop deref f first n); intros Hn; cbv zeta.
  - split; [lia|]. split; [left; reflexivity | left; lia].
  - assert (Hq : 0 <= n ÷ 2 < n)
      by (split; [apply Z.quot_pos | apply Z.quot_lt]; lia).
    destruct (H ltac:(lia)) as (Hr & Hl & Hu).
    split; [lia|]. split; [exact Hl|].
    right. destruct Hu as [-> | Hu]; assumption.
  - assert (Hq : 0 <= n ÷ 2 < n)
      by (split; [apply Z.quot_pos | apply Z.quot_lt]; lia).
    destruct (H ltac:(lia)) as (Hr & Hl & Hu).
    split; [lia|]. split.
    + right. destruct Hl as [-> | Hl]; [|exact Hl].
      replace (first + n ÷ 2 + 1 - 1) with (first + n ÷ 2) by lia. exact Heq.
    + destruct Hu as [Hu | Hu]; [left; lia | right; exact Hu].
Qed.

(** The loop reads the elements of its range only. *)
Lemma find_all_loop_ext (deref' : Z -> A) (first n : Z) :
  (forall i, first <= i < first + n -> deref' i = deref i) ->
  find_all_loop deref' f first n = find_all_loop deref f first n.
Proof.
  funelim (find_all_loop deref f first n); intros Hext.
  - rewrite find_all_loop_equation_1, Heq. reflexivity.
  - assert (Hq : 0 <= n ÷ 2 < n)
      by (split; [apply Z.quot_pos | apply Z.quot_lt]; lia).
    rewrite find_all_loop_equation_1, Heq0. cbn.
    rewrite Hext, Heq by lia. cbn.
    apply H. intros i Hi. apply Hext. lia.
  - assert (Hq : 0 <= n ÷ 2 < n)
      by (split; [apply Z.quot_pos | apply Z.quot_lt]; lia).
    rewrite find_all_loop_equation_1, Heq0. cbn.
    rewrite Hext, Heq by lia. cbn.
    apply H. intros i Hi. apply Hext. lia.
Qed.

Lemma find_all_loop_empty (first n : Z) :
  n <= 0 -> find_all_loop deref f first n = first.
Proof.
  intro Hn. rewrite find_all_loop_equation_1.
  destruct (Z_lt_dec 0 n); [lia | reflexivity].
Qed.

End FindAllFurtherFacts.

Section ShortcutFurtherFacts.

Import Shortcuts.

(** X16. Whatever the predicate does on the range, partitioned or not,
    [find_all] returns a position of [[first, last]] where the predicate
    goes from false to true, the ends of the range counting as such, and
    it reads no element outside [[first, last)]: two sequences that agree
    on the range give the same answer.  On an empty or reversed range the
    answer is [first]. *)
Theorem find_all_stays_in_range_and_reads_only_it
    (A : Type) (deref deref' : Z -> A) (f : A -> bool) (first last : Z) :
  (last <= first -> find_all deref f first last = first) /\
  (first <= last ->
   let r := find_all deref f first last in
   first <= r <= last /\
   (r = first \/ f (deref (r - 1)) = false) /\
   (r = last \/ f (deref r) = true)) /\
  ((forall i, first <= i < last -> deref' i = deref i) ->
   find_all deref' f first last = find_all deref f first last).
Proof.
  unfold find_all. split; [|split].
  - intro Hle. apply find_all_loop_empty. lia.
  - intro Hle. cbv zeta.
    pose proof (find_all_loop_local deref f first (last - first)
                  ltac:(lia)) as Hlocal.
    cbv zeta in Hlocal.
    replace (first + (last - first)) with last in Hlocal by lia.
    exact Hlocal.
  - intro Hext. apply find_all_loop_ext. intros i Hi. apply Hext. lia.
Qed.

(** Inserting at a position of a list and taking the element out again. *)
Lemma insert_then_remove {X : Type} (n : nat) :
  forall (l : list X) (x d : X),
    (n <= List.length l)%nat ->
    let l' := firstn n l ++ x :: skipn n l in
    List.length l' = S (List.length l) /\
    nth n l' d = x /\
    firstn n l' ++ skipn (S n) l' = l.
Proof.
  induction n as [|n IH]; intros l x d Hn; cbv zeta.
  - cbn. auto.
  - destruct l as [|a l]; [cbn in Hn; lia|].
    cbn in Hn. destruct (IH l x d ltac:(lia)) as (Hlen & Hnth & Hrest).
    cbn [firstn skipn app nth List.length].
    split; [f_equal; exact Hlen|]. split; [exact Hnth|].
    f_equal. exact Hrest.
Qed.




(** X17. [add_new_item] either leaves the vector as it is and emits nothing,
    which happens exactly when the command, read as a key sequence, is
    the sequence of an item or the application does not know the command;
    or it makes the vector longer by the one new item, at the position it
    emits, so that [remove_index] at that position returns the new item
    and the vector as it was.  Whether it inserts, and where, does not
    depend on the key sequence given: the sequences of the items are
    compared with the command, never with the new sequence. *)
Theorem add_new_item_inserts_one_row_or_nothing
    (shortcuts : ApplicationShortcuts) (items : list ShortcutTriple)
    (command : string) (sequence sequence' : QKeySequence) :
  match add_new_item items command sequence with
  | (items', None) =>
      items' = items /\
      (sequence_already_exists items (QKeySequence_of_QString command) = true
       \/ get_shortcut_info command = None)
  | (items', Some position) =>
      exists info : ShortcutInfo,
        get_shortcut_info command = Some info /\
        sequence_already_exists items (QKeySequence_of_QString command)
          = false /\
        0 <= position <= Z.of_nat (List.length items) /\
        List.length items' = S (List.length items) /\
        remove_index items' position =
          Some (mkShortcutTriple command (info_display_name info) sequence,
                items)
  end /\
  snd (add_new_item items command sequence')
    = snd (add_new_item items command sequence).
Proof.
  unfold add_new_item.
  destruct (sequence_already_exists items _) eqn:Hexists; [cbn; auto|].
  destruct (get_shortcut_info command) as [info|] eqn:Hinfo; [|cbn; auto].
  cbv zeta. split; [|reflexivity].
  exists info. split; [reflexivity|]. split; [reflexivity|].
  set (name := info_display_name info).
  set (new := mkShortcutTriple command name sequence).
  assert (Hpos : 0 <= insert_position items name
                   <= Z.of_nat (List.length items)).
  { unfold insert_position, find_all.
    pose proof (find_all_loop_local (item_at items)
                  (fun a => String.ltb name (display_name a)) 0
                  (Z.of_nat (List.length items) - 0) ltac:(lia)) as Hlocal.
    cbv zeta in Hlocal. lia. }
  set (p := insert_position items name) in *.
  replace (p - 0) with p by lia.
  split; [exact Hpos|].
  destruct (insert_then_remove (Z.to_nat p) items new empty_triple
              ltac:(lia)) as (Hlen & Hnth & Hrest).
  cbv zeta in Hlen, Hnth, Hrest.
  split; [exact Hlen|].
  unfold remove_index, vector_insert, item_at. rewrite Hlen, Hnth, Hrest.
  replace ((0 <=? p) && (p <? Z.of_nat (S (List.length items)))) with true;
    [reflexivity|].
  symmetry. apply andb_true_iff. split; [apply Z.leb_le | apply Z.ltb_lt]; lia.
Qed.


End ShortcutFurtherFacts.

(** ** The directory iterator *)

Section DirectoryFacts.

Import Directory.

(** X19. On a listing that is not empty and has at most half as many entries
    as [size_t] has values, and from a position of the listing, [++] and
    [--] stay in the listing and undo each other, [++] goes to the next
    entry and from the last one to the first, [--] goes to the entry
    before and from the first one to the last, and [to_end] goes to the
    last entry. *)
Theorem iterator_steps_are_inverse_and_wrap_around
    (bits size p : Z) (b : bool) :
  0 < bits -> 0 < size <= 2 ^ (bits - 1) -> 0 <= p < size ->
  let it := mkIterator p b in
  increment bits size it
    = Some (mkIterator (if p =? size - 1 then 0 else p + 1) b) /\
  decrement bits size it
    = Some (mkIterator (if p =? 0 then size - 1 else p - 1) b) /\
  (forall it', increment bits size it = Some it' ->
     0 <= position it' < size /\ decrement bits size it' = Some it) /\
  (forall it', decrement bits size it = Some it' ->
     0 <= position it' < size /\ increment bits size it' = Some it) /\
  to_end bits size it = Some (mkIterator (size - 1) b).
Proof.
  intros Hbits Hsize Hp.
  assert (Hhalf : 2 ^ bits = 2 * 2 ^ (bits - 1)).
  { replace bits with (1 + (bits - 1)) at 1 by lia.
    rewrite Z.pow_add_r by lia. reflexivity. }
  assert (Hinc : forall q, 0 <= q < size ->
            increment bits size (mkIterator q b)
              = Some (mkIterator (if q =? size - 1 then 0 else q + 1) b)).
  { intros q Hq. unfold increment, size_t. cbn [position in_position].
    destruct (size =? 0) eqn:E; [apply Z.eqb_eq in E; lia|].
    rewrite (Z.mod_small (q + 1)) by lia.
    destruct (q =? size - 1) eqn:Eq.
    - apply Z.eqb_eq in Eq. replace (q + 1) with size by lia.
      rewrite Z.mod_same by lia. reflexivity.
    - apply Z.eqb_neq in Eq. rewrite Z.mod_small by lia. reflexivity. }
  assert (Hdec : forall q, 0 <= q < size ->
            decrement bits size (mkIterator q b)
              = Some (mkIterator (if q =? 0 then size - 1 else q - 1) b)).
  { intros q Hq. unfold decrement, size_t. cbv zeta.
    cbn [position in_position].
    destruct (size =? 0) eqn:E; [apply Z.eqb_eq in E; lia|].
    rewrite (Z.mod_small (q + size)) by lia.
    rewrite (Z.mod_small (q + size - 1)) by lia.
    destruct (q =? 0) eqn:Eq.
    - apply Z.eqb_eq in Eq. subst q. rewrite Z.mod_small by lia.
      f_equal.
    - apply Z.eqb_neq in Eq.
      replace (q + size - 1) with (q - 1 + 1 * size) by lia.
      rewrite Z.mod_add by lia. rewrite Z.mod_small by lia. reflexivity. }
  cbv zeta. split; [apply Hinc; exact Hp|]. split; [apply Hdec; exact Hp|].
  split; [|split].
  - intros it'. rewrite (Hinc p Hp). intros [= <-]. cbn [position].
    destruct (p =? size - 1) eqn:E;
      [apply Z.eqb_eq in E | apply Z.eqb_neq in E].
    + split; [lia|]. rewrite Hdec by lia. cbn. f_equal. f_equal. lia.
    + split; [lia|]. rewrite Hdec by lia.
      destruct (p + 1 =? 0) eqn:E'; [apply Z.eqb_eq in E'; lia|].
      f_equal. f_equal. lia.
  - intros it'. rewrite (Hdec p Hp). intros [= <-]. cbn [position].
    destruct (p =? 0) eqn:E;
      [apply Z.eqb_eq in E | apply Z.eqb_neq in E].
    + split; [lia|]. rewrite Hinc by lia. rewrite Z.eqb_refl.
      f_equal. f_equal. lia.
    + split; [lia|]. rewrite Hinc by lia.
      destruct (p - 1 =? size - 1) eqn:E'; [apply Z.eqb_eq in E'; lia|].
      f_equal. f_equal. lia.
  - unfold to_end, to_start. cbn [in_position]. rewrite Hdec by lia.
    reflexivity.
Qed.

End DirectoryFacts.

(** * The theorems at concrete inputs *)




(** [failure_is_reported_and_never_truthy] for [load_image] on a host
    whose operations fail. *)
Lemma failure_is_reported_and_never_truthy_witness :
  let out :=
    Bridge.run (interpreter := Bridge.failing_host "no such file")
               (conv := Lua.plain_conversions)
               Bridge.P_load_image [Lua.Str "a.png"]
               (Bridge.initial_state tt 12) in
  fst out = [Lua.Nil; Lua.Str "no such file"] /\
  Bridge.truthy (hd Lua.Nil (fst out)) = false /\
  Bridge.trace (snd out) =
    [] ++ [Bridge.Call_load_image "a.png";
           Bridge.Call_message_box
             (Some "Error executing Lua script."%string)
             (Bridge.error_text 12 "load_image" "no such file") true].
Proof.
  apply (failure_is_reported_and_never_truthy
           (interpreter := Bridge.failing_host "no such file")
           (conv := Lua.plain_conversions)
           Bridge.P_load_image [Lua.Str "a.png"]
           (Bridge.initial_state tt 12)
           (Bridge.Call_load_image "a.png")
           (Bridge.mkCallResult false [] "no such file"));
    reflexivity.
Defined.


(** [traverse_image_calls_row_major] on the 2 by 2 sample image with a
    callback that paints every pixel. *)
Lemma traverse_image_calls_row_major_witness :
  Traversal.lua_calls
    (snd (Traversal.traverse_image (conv := Lua.plain_conversions)
            [Lua.Integer 5] Traversal.painting_callback
            Traversal.sample_world))
  = [] ++ Traversal.row_major_calls Traversal.sample_image.
Proof.
  apply (proj1 (proj2 (traverse_image_calls_row_major
                         (conv := Lua.plain_conversions)
                         [Lua.Integer 5] Traversal.painting_callback
                         Traversal.sample_world 5 Traversal.sample_image
                         eq_refl eq_refl))).
Defined.




(** [rgb_to_hsv_saturation_and_value] at [(200, 10, 30)]. *)
Lemma rgb_to_hsv_saturation_and_value_witness :
  exists h s v : Q,
    Color.rgb_to_hsv 200 10 30 = Ok (h, s, v) /\
    (v * 255 == Qmax 200 (Qmax 10 30))%Q /\
    (s * Qmax 200 (Qmax 10 30)
       == Qmax 200 (Qmax 10 30) - Qmin 200 (Qmin 10 30))%Q /\
    (0 <= s /\ s <= 1)%Q /\ (0 <= v /\ v <= 1)%Q.
Proof.
  apply (rgb_to_hsv_saturation_and_value 200 10 30); unfold Qle; simpl; lia.
Defined.

(** [success_pushes_the_payload] for [load_image] on a host that accepts
    every call. *)
Lemma success_pushes_the_payload_witness :
  let out :=
    Bridge.run (interpreter := Bridge.accepting_host)
               (conv := Lua.plain_conversions)
               Bridge.P_load_image [Lua.Str "a.png"]
               (Bridge.initial_state tt 12) in
  fst out = [Lua.Integer 1] /\
  Bridge.trace (snd out) = [] ++ [Bridge.Call_load_image "a.png"].
Proof.
  apply (success_pushes_the_payload
           (interpreter := Bridge.accepting_host)
           (conv := Lua.plain_conversions)
           Bridge.P_load_image [Lua.Str "a.png"]
           (Bridge.initial_state tt 12)
           (Bridge.Call_load_image "a.png")
           (Bridge.mkCallResult true [1] EmptyString));
    reflexivity.
Defined.

(** [to_lower_normalises] at a name in mixed case and at one in lower
    case. *)
Lemma to_lower_normalises_witness :
  String.length (Bridge.to_lower "JpEg") = 4%nat /\
  Bridge.to_lower "png" = "png"%string.
Proof.
  split.
  - apply (proj1 (to_lower_normalises "JpEg")).
  - apply (proj1 (proj2 (proj2 (to_lower_normalises "png")))).
    repeat constructor.
Defined.

(** [save_image_format_is_lower_case] for a script that asks for the
    format [PNG], on a host whose default format is empty. *)
Lemma save_image_format_is_lower_case_witness :
  Bridge.lower_case
    (Bridge.format
       (Bridge.save_image_options (interpreter := Bridge.accepting_host)
          (conv := Lua.plain_conversions)
          [Lua.Integer 1; Lua.Str "out";
           Lua.Table [("format"%string, Lua.Str "PNG")]])).
Proof.
  apply (save_image_format_is_lower_case
           (interpreter := Bridge.accepting_host)
           (conv := Lua.plain_conversions)).
  constructor.
Defined.

(** [zig_zag_order_checks_its_arguments] with four arguments, and with
    the origin of a grid of 3 by 3 in the state [Initial]. *)
Lemma zig_zag_order_checks_its_arguments_witness :
  fst (Bridge.zig_zag_order (H := unit) (conv := Lua.plain_conversions)
         [Lua.Integer 0; Lua.Integer 0; Lua.Integer 3; Lua.Integer 3]
         (Bridge.initial_state tt 1)) = [] /\
  exists x y s : Z,
    fst (Bridge.zig_zag_order (H := unit) (conv := Lua.plain_conversions)
           [Lua.Integer 0; Lua.Integer 0; Lua.Integer 3; Lua.Integer 3;
            Lua.Integer 0]
           (Bridge.initial_state tt 1))
    = [Lua.Integer x; Lua.Integer y; Lua.Integer s] /\
    ZigZag.in_grid 3 3 (x, y).
Proof.
  split.
  - destruct (zig_zag_order_checks_its_arguments
                (H := unit) (conv := Lua.plain_conversions)
                [Lua.Integer 0; Lua.Integer 0; Lua.Integer 3; Lua.Integer 3]
                (Bridge.initial_state tt 1)) as (_ & Hfew & _).
    apply Hfew. left. simpl. lia.
  - destruct (zig_zag_order_checks_its_arguments
                (H := unit) (conv := Lua.plain_conversions)
                [Lua.Integer 0; Lua.Integer 0; Lua.Integer 3; Lua.Integer 3;
                 Lua.Integer 0]
                (Bridge.initial_state tt 1)) as (_ & _ & Hfive).
    destruct (Hfive ltac:(simpl; lia) eq_refl)
      as (_ & x & y & s & Hout & Hin).
    exists x, y, s. split; [exact Hout|].
    apply Hin;
      [change (1 <= 3); lia | change (1 <= 3); lia
      | change (ZigZag.in_grid 3 3 (0, 0))].
    unfold ZigZag.in_grid. simpl. lia.
Defined.

(** [bitwise_primitives_compose] at 12 and 10 as integers of 64 bits,
    with the conversions that read a Lua integer as it is. *)
Lemma bitwise_primitives_compose_witness :
  (exists z : Z,
     Bridge.bitwise_xor (conv := Lua.plain_conversions)
       [Lua.Integer 12; Lua.Integer 10] = [Lua.Integer z] /\
     - 2 ^ 63 <= z < 2 ^ 63) /\
  Bridge.bitwise_not (conv := Lua.plain_conversions)
    (Bridge.bitwise_not (conv := Lua.plain_conversions) [Lua.Integer 12])
  = [Lua.Integer 12].
Proof.
  destruct (bitwise_primitives_compose (conv := Lua.plain_conversions)
              12 10 63 (fun z => eq_refl)) as (Hrange & Hnot & _).
  split; [|exact Hnot].
  apply Hrange; [lia | simpl; lia | simpl; lia |].
  right. right. left. reflexivity.
Defined.

(** [set_current_pixel_checks_channels] with a green channel of 256 on
    the sample store. *)
Lemma set_current_pixel_checks_channels_witness :
  Traversal.store
    (Traversal.set_current_pixel (conv := Lua.plain_conversions)
       [Lua.Integer 1; Lua.Integer 256; Lua.Integer 3; Lua.Integer 4]
       Traversal.sample_world)
  = Traversal.store Traversal.sample_world.
Proof.
  apply (proj1 (set_current_pixel_checks_channels
                  (conv := Lua.plain_conversions)
                  [Lua.Integer 1; Lua.Integer 256; Lua.Integer 3;
                   Lua.Integer 4]
                  Traversal.sample_world)).
  exists 2%nat. split; [lia|]. right. vm_compute. reflexivity.
Defined.

(** [zig_zag_order_visits_every_cell_once] on a grid of 4 by 3, from the
    origin. *)
Lemma zig_zag_order_visits_every_cell_once_witness :
  exists (fuel : nat) (visited : list (Z * Z)),
    ZigZag.drive fuel 4 3 0 0 ZigZag.Initial = Some visited /\
    hd_error visited = Some (0, 0) /\
    NoDup visited /\
    (forall q, In q visited <-> ZigZag.in_grid 4 3 q) /\
    StronglySorted ZigZag.before visited.
Proof.
  apply (zig_zag_order_visits_every_cell_once 4 3); try lia.
  discriminate.
Defined.

(** [zig_zag_order_stays_in_the_grid] on a grid of 4 by 3, at the cell
    [(3, 1)] with the state [UpRight]. *)
Lemma zig_zag_order_stays_in_the_grid_witness :
  exists x' y' s' : Z,
    ZigZag.zig_zag_order 4 3 3 1 ZigZag.UpRight = Some (x', y', s') /\
    ZigZag.in_grid 4 3 (x', y') /\
    ZigZag.before (3, 1) (x', y').
Proof.
  destruct (zig_zag_order_stays_in_the_grid 4 3 ltac:(lia) ltac:(lia)
              3 1 ZigZag.UpRight
              ltac:(unfold ZigZag.in_grid; simpl; lia))
    as (x' & y' & s' & Hstep & Hin & Hnext).
  exists x', y', s'. split; [exact Hstep|]. split; [exact Hin|].
  apply Hnext; [right; right; split; reflexivity | discriminate].
Defined.

(** [zig_zag_order_at_the_last_cell_and_off_the_states] on a grid of one
    cell, and on a grid of 4 by 3 with the state 9. *)
Lemma zig_zag_order_at_the_last_cell_and_off_the_states_witness :
  ZigZag.drive 1 1 1 0 0 ZigZag.Initial = Some [] /\
  ZigZag.zig_zag_order 4 3 2 1 9 = Some (2, 1, 9).
Proof.
  split.
  - apply (proj1 (proj2 (zig_zag_order_at_the_last_cell_and_off_the_states
                           1 1 ltac:(lia) ltac:(lia) 0 0 0)));
      reflexivity.
  - apply (proj2 (proj2 (zig_zag_order_at_the_last_cell_and_off_the_states
                           4 3 ltac:(lia) ltac:(lia) 2 1 9)));
      [discriminate | lia].
Defined.

(** [find_all_stays_in_range_and_reads_only_it] on the integers 0 to 9
    with a predicate that is true at the even ones only. *)
Lemma find_all_stays_in_range_and_reads_only_it_witness :
  let r := Shortcuts.find_all (fun i => i) Z.even 0 10 in
  0 <= r <= 10 /\
  (r = 0 \/ Z.even (r - 1) = false) /\
  (r = 10 \/ Z.even r = true).
Proof.
  apply (proj1 (proj2 (find_all_stays_in_range_and_reads_only_it
                         Z (fun i => i) (fun i => i) Z.even 0 10))).
  lia.
Defined.


(** [iterator_steps_are_inverse_and_wrap_around] at the last of five
    entries, with a [size_t] of 64 bits. *)
Lemma iterator_steps_are_inverse_and_wrap_around_witness :
  Directory.increment 64 5 (Directory.mkIterator 4 true)
    = Some (Directory.mkIterator 0 true) /\
  Directory.to_end 64 5 (Directory.mkIterator 4 true)
    = Some (Directory.mkIterator 4 true).
Proof.
  destruct (iterator_steps_are_inverse_and_wrap_around 64 5 4 true
              ltac:(lia) ltac:(simpl; lia) ltac:(lia))
    as (Hinc & _ & _ & _ & Hend).
  exact (conj Hinc Hend).
Defined.
